(** * MarkdownTransform: the VitePress markdown plugin of VueUse

    A shallow embedding of [packages/.vitepress/plugins/markdownTransform.ts]
    and a verification of its block rewriter (the [replaceAsync] call that
    turns a fenced TypeScript sample into a TS/JS toggle).

    Conventions of the model.
    - A JavaScript string is a list of code units.  Code units are modelled
      by [ascii], that is, documents are taken in the Latin-1 range; the line
      terminators U+2028 and U+2029 therefore never occur.
    - A call that may throw, or an [async] function whose promise may reject,
      returns [option]: [None] is the exception or the rejection.
    - The libraries the plugin imports (prettier, typescript, twoslash,
      node:fs, node:path) and the modules of the repository that it imports
      but that are not part of the plugin file (the metadata registry, the
      package list, [scripts/utils]) are parameters of the development. *)

From Stdlib Require Import Ascii String.
From Stdlib Require Import List Bool Arith Lia ZArith.
Import ListNotations.

Open Scope string_scope.
Open Scope list_scope.
Open Scope nat_scope.

(** ** Strings *)

Definition str : Type := list ascii.

Definition lit (s : string) : str := list_ascii_of_string s.

Definition nl : ascii := ascii_of_nat 10.
Definition dq : ascii := ascii_of_nat 34.
Definition bq : ascii := ascii_of_nat 96.

Fixpoint str_eqb (a b : str) : bool :=
  match a, b with
  | [], [] => true
  | x :: a', y :: b' => Ascii.eqb x y && str_eqb a' b'
  | _, _ => false
  end.

(** [l.join(sep)] *)
Fixpoint join (sep : str) (l : list str) : str :=
  match l with
  | [] => []
  | [x] => x
  | x :: l' => x ++ sep ++ join sep l'
  end.

(** A template literal written line by line. *)
Definition lines (l : list str) : str := join [nl] l.

(** ** Character classes *)

Definition code (c : ascii) : nat := nat_of_ascii c.

Definition in_range (lo hi : nat) (c : ascii) : bool :=
  (lo <=? code c) && (code c <=? hi).

(** White space and line terminators, as [\s] and [trim] see them
    (TAB, LF, VT, FF, CR, SP, NBSP). *)
Definition is_space (c : ascii) : bool :=
  in_range 9 13 c || (code c =? 32) || (code c =? 160).

(** [\w] *)
Definition is_word (c : ascii) : bool :=
  in_range 48 57 c || in_range 65 90 c || (code c =? 95) || in_range 97 122 c.

(** [.] without the [s] flag: anything but a line terminator. *)
Definition not_line_end (c : ascii) : bool :=
  negb ((code c =? 10) || (code c =? 13)).

(** [.] with the [s] flag. *)
Definition any_char (_ : ascii) : bool := true.

(** [[^\n]] *)
Definition not_nl (c : ascii) : bool := negb (Ascii.eqb c nl).

Definition is_char (x c : ascii) : bool := Ascii.eqb c x.

(** [s.startsWith(p)], returning the rest of [s]. *)
Fixpoint strip_prefix (p s : str) : option str :=
  match p, s with
  | [], _ => Some s
  | x :: p', y :: s' => if is_char x y then strip_prefix p' s' else None
  | _ :: _, [] => None
  end.

(** [s.endsWith(p)] *)
Definition endsWith (s p : str) : bool :=
  match strip_prefix (rev p) (rev s) with Some _ => true | None => false end.

(** [toLowerCase] and [toUpperCase] of one Latin-1 code unit. *)
Definition lower_char (c : ascii) : ascii :=
  if in_range 65 90 c || (in_range 192 222 c && negb (code c =? 215))
  then ascii_of_nat (code c + 32) else c.

Definition upper_ascii (c : ascii) : ascii :=
  if in_range 97 122 c then ascii_of_nat (code c - 32) else c.

(** A pattern letter under the [i] flag.  The pattern letters of this file
    are ASCII, for which canonicalisation is the ASCII upper case. *)
Definition is_char_i (x c : ascii) : bool :=
  Ascii.eqb (upper_ascii c) (upper_ascii x).

Definition toLowerCase (s : str) : str := map lower_char s.

Fixpoint trimStart (s : str) : str :=
  match s with
  | c :: s' => if is_space c then trimStart s' else s
  | [] => []
  end.

Definition trimEnd (s : str) : str := rev (trimStart (rev s)).

Definition trim (s : str) : str := trimEnd (trimStart s).

(** ** Regular expressions

    The fragment of JavaScript regular expressions the plugin uses, with the
    backtracking order of the language: alternatives left to right, greedy
    quantifiers longest first, lazy quantifiers shortest first.  A matcher
    reads the input through a cursor: the text before the position, reversed
    ([b]), and the text after it ([a]). *)

Inductive re : Type :=
| Eps
| Chr (p : ascii -> bool)
| Seq (r1 r2 : re)
| Alt (r1 r2 : re)
| Opt (r : re)
| Plus (p : ascii -> bool)
| PlusLazy (p : ascii -> bool)
| Rep (p : ascii -> bool) (lo hi : nat)
| Grp (i : nat) (r : re)
| WordB
| Never.

Definition caps : Type := list (nat * str).

Fixpoint get_cap (i : nat) (cs : caps) : option str :=
  match cs with
  | [] => None
  | (j, v) :: cs' => if i =? j then Some v else get_cap i cs'
  end.

Section Engine.
Context {R : Type}.

Definition kont : Type := str -> str -> option R.

Fixpoint plus_greedy (p : ascii -> bool) (b a : str) (k : kont) : option R :=
  match a with
  | c :: a' =>
      if p c then
        match plus_greedy p (c :: b) a' k with
        | Some x => Some x
        | None => k (c :: b) a'
        end
      else None
  | [] => None
  end.

Fixpoint plus_lazy (p : ascii -> bool) (b a : str) (k : kont) : option R :=
  match a with
  | c :: a' =>
      if p c then
        match k (c :: b) a' with
        | Some x => Some x
        | None => plus_lazy p (c :: b) a' k
        end
      else None
  | [] => None
  end.

Fixpoint rep_greedy (p : ascii -> bool) (lo hi : nat) (b a : str) (k : kont)
  : option R :=
  let stop := if lo =? 0 then k b a else None in
  match hi with
  | 0 => stop
  | S hi' =>
      match a with
      | c :: a' =>
          if p c then
            match rep_greedy p (pred lo) hi' (c :: b) a' k with
            | Some x => Some x
            | None => stop
            end
          else stop
      | [] => stop
      end
  end.

Definition at_boundary (b a : str) : bool :=
  xorb (match b with c :: _ => is_word c | [] => false end)
       (match a with c :: _ => is_word c | [] => false end).

Fixpoint run (r : re) (b a : str) (cs : caps)
         (k : str -> str -> caps -> option R) : option R :=
  match r with
  | Eps => k b a cs
  | Chr p =>
      match a with
      | c :: a' => if p c then k (c :: b) a' cs else None
      | [] => None
      end
  | Seq r1 r2 => run r1 b a cs (fun b' a' cs' => run r2 b' a' cs' k)
  | Alt r1 r2 =>
      match run r1 b a cs k with
      | Some x => Some x
      | None => run r2 b a cs k
      end
  | Opt r1 =>
      match run r1 b a cs k with
      | Some x => Some x
      | None => k b a cs
      end
  | Plus p => plus_greedy p b a (fun b' a' => k b' a' cs)
  | PlusLazy p => plus_lazy p b a (fun b' a' => k b' a' cs)
  | Rep p lo hi => rep_greedy p lo hi b a (fun b' a' => k b' a' cs)
  | Grp i r1 =>
      run r1 b a cs
          (fun b' a' cs' =>
             k b' a' ((i, firstn (length a - length a') a) :: cs'))
  | WordB => if at_boundary b a then k b a cs else None
  | Never => None
  end.
End Engine.

(** A literal, and a literal under the [i] flag. *)
Fixpoint Lit (s : str) : re :=
  match s with
  | [] => Eps
  | c :: s' => Seq (Chr (is_char c)) (Lit s')
  end.

Fixpoint LitI (s : str) : re :=
  match s with
  | [] => Eps
  | c :: s' => Seq (Chr (is_char_i c)) (LitI s')
  end.

Fixpoint Alts (l : list re) : re :=
  match l with
  | [] => Never
  | [r] => r
  | r :: l' => Alt r (Alts l')
  end.

Fixpoint Seqs (l : list re) : re :=
  match l with
  | [] => Eps
  | [r] => r
  | r :: l' => Seq r (Seqs l')
  end.

(** The result of one match: its index, the matched text, the groups. *)
Record rmatch : Type := MkMatch {
  m_index : nat;
  m_text : str;
  m_caps : caps
}.

(** [m_group m i] is the argument a replace callback receives for group [i]
    ([None] is [undefined]). *)
Definition m_group (m : rmatch) (i : nat) : option str := get_cap i (m_caps m).

(** One attempt of [r] at the cursor. *)
Definition exec_at (r : re) (b a : str) : option rmatch :=
  run r b a []
      (fun _ a' cs =>
         Some (MkMatch (length b) (firstn (length a - length a') a) cs)).

(** The first match at or after the cursor: [RegExp.prototype.exec]. *)
Fixpoint find_first (r : re) (b a : str) : option rmatch :=
  match exec_at r b a with
  | Some m => Some m
  | None =>
      match a with
      | c :: a' => find_first r (c :: b) a'
      | [] => None
      end
  end.

(** [re.test(s)], and the truth value of [s.match(re)]. *)
Definition test (r : re) (s : str) : bool :=
  match find_first r [] s with Some _ => true | None => false end.

(** [s.search(re)] *)
Definition search (r : re) (s : str) : Z :=
  match find_first r [] s with
  | Some m => Z.of_nat (m_index m)
  | None => (-1)%Z
  end.

(** The walk of a global regular expression over a string: the characters it
    leaves in place and the matches it finds, in order.  [skip] counts the
    characters of the current match that are still to be passed over.  After
    an empty match the walk steps over one character, as [lastIndex] does. *)
Inductive piece : Type :=
| Keep (c : ascii)
| Hit (m : rmatch).

Fixpoint scan (r : re) (b a : str) (skip : nat) : list piece :=
  match a with
  | [] =>
      match skip with
      | 0 => match exec_at r b [] with Some m => [Hit m] | None => [] end
      | S _ => []
      end
  | c :: a' =>
      match skip with
      | S n => scan r (c :: b) a' n
      | 0 =>
          match exec_at r b a with
          | Some m =>
              Hit m ::
              match length (m_text m) with
              | 0 => Keep c :: scan r (c :: b) a' 0
              | S n => scan r (c :: b) a' n
              end
          | None => Keep c :: scan r (c :: b) a' 0
          end
      end
  end.

(** [s.replace(re, callback)] for a global [re] and a callback that reads and
    writes a state [S] and may throw. *)
Fixpoint fold_pieces {S : Type} (cb : rmatch -> S -> option (str * S))
         (ps : list piece) (st : S) : option (str * S) :=
  match ps with
  | [] => Some ([], st)
  | Keep c :: ps' =>
      match fold_pieces cb ps' st with
      | Some (out, st') => Some (c :: out, st')
      | None => None
      end
  | Hit m :: ps' =>
      match cb m st with
      | Some (r, st1) =>
          match fold_pieces cb ps' st1 with
          | Some (out, st2) => Some (r ++ out, st2)
          | None => None
          end
      | None => None
      end
  end.

Definition replace_all {S : Type} (r : re)
           (cb : rmatch -> S -> option (str * S)) (s : str) (st : S)
  : option (str * S) :=
  fold_pieces cb (scan r [] s 0) st.

(** [s.replace(re, callback)] for a stateless callback that does not throw. *)
Definition replace_all_pure (r : re) (f : rmatch -> str) (s : str) : str :=
  match replace_all r (fun m (_ : unit) => Some (f m, tt)) s tt with
  | Some (out, _) => out
  | None => s
  end.

(** [s.replace(re, f)] without the [g] flag: the first match only. *)
Definition replace_first (r : re) (f : rmatch -> str) (s : str) : str :=
  match find_first r [] s with
  | Some m =>
      firstn (m_index m) s ++ f m
             ++ skipn (m_index m + length (m_text m)) s
  | None => s
  end.

(** [s.indexOf(p)] *)
Fixpoint indexOf_from (p s : str) (i : nat) : Z :=
  match strip_prefix p s with
  | Some _ => Z.of_nat i
  | None =>
      match s with
      | _ :: s' => indexOf_from p s' (S i)
      | [] => (-1)%Z
      end
  end.

Definition indexOf (s p : str) : Z := indexOf_from p s 0.

(** [s.split(sep)] for a one-character separator. *)
Fixpoint split_on (sep : ascii) (s : str) : list str :=
  match s with
  | [] => [[]]
  | c :: s' =>
      if Ascii.eqb c sep then [] :: split_on sep s'
      else match split_on sep s' with
           | x :: l => (c :: x) :: l
           | [] => [[c]]
           end
  end.

(** [l.slice(-n)] *)
Definition slice_last {A : Type} (n : nat) (l : list A) : list A :=
  skipn (length l - n) l.

(** [l.includes(x)] for an [x] that may be [undefined]. *)
Definition includes (l : list str) (x : option str) : bool :=
  match x with
  | Some v => existsb (str_eqb v) l
  | None => false
  end.

(** ** The option monad of throwing and rejecting computations *)

Definition bind {A B : Type} (x : option A) (f : A -> option B) : option B :=
  match x with
  | Some a => f a
  | None => None
  end.

Notation "x <- e ;; k" := (bind e (fun x => k))
  (at level 61, e at next level, right associativity).

(** [Promise.all]: resolved with all results in order, rejected as soon as
    one promise is. *)
Fixpoint promise_all {A : Type} (ps : list (option A)) : option (list A) :=
  match ps with
  | [] => Some []
  | p :: ps' =>
      x <- p ;;
      xs <- promise_all ps' ;;
      Some (x :: xs)
  end.

(** ** The regular expressions of the plugin *)

(** [/\.md\b/] *)
Definition re_md : re := Seq (Lit (lit ".md")) WordB.

(** The alternatives of [{${functionNames.join('|')}}]: the braces are plain
    characters and end up inside the first and the last alternative.  The
    registry's names are identifiers and hold no pattern character. *)
Fixpoint close_last (l : list str) : list str :=
  match l with
  | [] => []
  | [x] => [x ++ lit "}"]
  | x :: l' => x :: close_last l'
  end.

Definition link_alts (names : list str) : list str :=
  match names with
  | [] => [lit "{}"]
  | n :: l => close_last ((lit "{" ++ n) :: l)
  end.

(** [new RegExp(`\`({${functionNames.join('|')}})\`(.)`, 'g')] *)
Definition re_link (names : list str) : re :=
  Seqs [Chr (is_char bq);
        Grp 1 (Alts (map Lit (link_alts names)));
        Chr (is_char bq);
        Grp 2 (Chr not_line_end)].

(** [/https?:\/\/vueuse\.org\//g] *)
Definition re_site : re :=
  Seqs [Lit (lit "http"); Opt (Chr (is_char "s"));
        Lit (lit "://vueuse.org/")].

(** [/\n```ts( [^\n]+)?\n(.+?)\n```\n/gs], between its two literals. *)
Definition fence_open : str := nl :: lit "```ts".
Definition fence_close : str := nl :: lit "```" ++ [nl].

Definition re_annotation : re := Seq (Chr (is_char " ")) (Plus not_nl).

Definition re_fence : re :=
  Seqs [Lit fence_open;
        Opt (Grp 1 re_annotation);
        Chr (is_char nl);
        Grp 2 (PlusLazy any_char);
        Lit fence_close].

(** [/\n+/g] *)
Definition re_newlines : re := Plus (is_char nl).

(** [/\n#{2,6}\s.+/] *)
Definition re_header : re :=
  Seqs [Chr (is_char nl); Rep (is_char "#") 2 6; Chr is_space;
        Plus not_line_end].

(** [/(# \w+)\n/] *)
Definition re_title : re :=
  Seq (Grp 1 (Seq (Lit (lit "# ")) (Plus is_word))) (Chr (is_char nl)).

(** [/## (Components?(?:\sUsage)?)/i] and [/## (Directives?(?:\sUsage)?)/i] *)
Definition re_usage (word : str) : re :=
  Seq (LitI (lit "## "))
      (Grp 1 (Seqs [LitI word; Opt (Chr (is_char_i "s"));
                    Opt (Seq (Chr is_space) (LitI (lit "Usage")))])).

Definition re_components : re := re_usage (lit "Component").
Definition re_directives : re := re_usage (lit "Directive").

(** ** The plugin *)

(** The options both [format] calls pass to prettier. *)
Record FormatOptions : Type := {
  semi : bool;
  singleQuote : bool;
  parser : str
}.

(** An entry of the function registry, as far as the plugin reads it. *)
Record VueUseFunction : Type := {
  fn_name : str;
  fn_docs : option str
}.

(** An entry of the package list, as far as the plugin reads it. *)
Record PackageManifest : Type := {
  pkg_name : str;
  pkg_addon : bool
}.

(** What [`${x}`] prints for a value that may be [undefined]. *)
Definition show (x : option str) : str :=
  match x with
  | Some v => v
  | None => lit "undefined"
  end.

(** The outcome of the comparison a block ends with. *)
Inductive Decision : Type :=
| Unchanged
| Diverged (tsPane jsPane : str).

Section Plugin.

(** prettier's [format]; rejects on a snippet it cannot parse. *)
Variable format : str -> FormatOptions -> option str.
(** [ts.transpileModule(src, { compilerOptions: { target } }).outputText] *)
Variable transpileModule : str -> nat -> option str.
(** [twoslasher(code, extension).code] *)
Variable twoslasher : str -> str -> option str.
(** [functionNames] and [getFunction] of the metadata registry. *)
Variable functionNames : list str.
Variable getFunction : str -> option VueUseFunction.
(** [packages] of the package list. *)
Variable packages : list PackageManifest.
(** [getTypeDefinition] and [replacer] of the scripts' utilities. *)
Variable getTypeDefinition : str -> str -> option (option str).
Variable replacer : str -> str -> str -> str -> str.
(** node's [existsSync] and [join], and the two resolved directories. *)
Variable existsSync : str -> bool.
Variable path_join : list str -> str.
Variable DIR_TYPES : str.
Variable DIR_SRC : str.

Definition hasTypes : bool := existsSync DIR_TYPES.

(** [{ semi: false, singleQuote: true, parser: 'typescript' }] *)
Definition fmt_opts : FormatOptions :=
  {| semi := false; singleQuote := true; parser := lit "typescript" |}.

(** *** Link rewriting *)

(** The callback of the first [replace]: a name already followed by [']']
    is left alone, any other is turned into a link and the character after
    it into a space.  [getFunction(name)!] throws on an unknown name. *)
Definition link_callback (m : rmatch) : option str :=
  let name := show (m_group m 1) in
  let ending := show (m_group m 2) in
  if str_eqb ending (lit "]") then Some (m_text m)
  else
    fn <- getFunction name ;;
    Some (lit "[" ++ [bq] ++ fn_name fn ++ [bq] ++ lit "]("
              ++ show (fn_docs fn) ++ lit ") ").

Definition linkify (code : str) : option str :=
  r <- replace_all (re_link functionNames)
                   (fun m (_ : unit) => x <- link_callback m ;; Some (x, tt))
                   code tt ;;
  Some (fst r).

Definition relativize (code : str) : str :=
  replace_all_pure re_site (fun _ => lit "/") code.

Definition rewrite_links (code : str) : option str :=
  c <- linkify code ;;
  Some (relativize c).

(** *** The block rewriter *)

(** [meta.trim().toLowerCase() === 'twoslash'] *)
Definition is_twoslash (meta : str) : bool :=
  str_eqb (toLowerCase (trim meta)) (lit "twoslash").

(** [snippet.replace(/\n+/g, '\n')] *)
Definition collapse_newlines (snippet : str) : str :=
  replace_all_pure re_newlines (fun _ => [nl]) snippet.

(** The text returned for a block whose two renderings differ. *)
Definition toggle (meta snippet formattedJS : str) : str :=
  lines [ [];
          lit "<CodeToggle>";
          lit "<div class=" ++ [dq] ++ lit "code-block-ts" ++ [dq] ++ lit ">";
          [];
          lit "```ts " ++ meta;
          snippet;
          lit "```";
          [];
          lit "</div>";
          lit "<div class=" ++ [dq] ++ lit "code-block-js" ++ [dq] ++ lit ">";
          [];
          lit "```js";
          formattedJS;
          lit "```";
          [];
          lit "</div>";
          lit "</CodeToggle>";
          [] ].

(** The snippet the rest of the callback works on: [snippet] is assigned
    the twoslasher's code when the fence annotation is the twoslash flag. *)
Definition prepare (meta snippet : str) : option str :=
  if is_twoslash meta then twoslasher snippet (lit "ts") else Some snippet.

Definition formatTS (snippet : str) : option str :=
  f <- format (collapse_newlines snippet) fmt_opts ;;
  Some (trim f).

Definition formatJS (formattedTS : str) : option str :=
  js <- transpileModule formattedTS 99 ;;
  f <- format js fmt_opts ;;
  Some (trim f).

(** The callback of [replaceAsync], on the arguments [_], [meta] and
    [snippet] after their defaults. *)
Definition rewrite_block (whole meta snippet : str) : option str :=
  snippet <- prepare meta snippet ;;
  formattedTS <- formatTS snippet ;;
  formattedJS <- formatJS formattedTS ;;
  if str_eqb formattedJS formattedTS then Some whole
  else Some (toggle meta snippet formattedJS).

(** [meta = ''] and [snippet = ''] *)
Definition default (x : option str) : str :=
  match x with
  | Some v => v
  | None => []
  end.

Definition block_callback (m : rmatch) : option str :=
  rewrite_block (m_text m) (default (m_group m 1)) (default (m_group m 2)).

(** [replaceAsync]: a first walk calls [replacer] on every match and
    collects the promises, the second walk, once all are resolved, takes
    the replacements from the front of the array. *)
Definition push_promise (replacer_cb : rmatch -> option str) (m : rmatch)
           (promises : list (option str))
  : option (str * list (option str)) :=
  Some ([], promises ++ [replacer_cb m]).

(** [() => replacements.shift()!]; an empty array would give [undefined]. *)
Definition shift_replacement (_ : rmatch) (replacements : list str)
  : option (str * list str) :=
  match replacements with
  | x :: rest => Some (x, rest)
  | [] => Some (lit "undefined", [])
  end.

Definition replaceAsync (s : str) (r : re) (replacer_cb : rmatch -> option str)
  : option str :=
  first <- replace_all r (push_promise replacer_cb) s [] ;;
  replacements <- promise_all (snd first) ;;
  second <- replace_all r shift_replacement s replacements ;;
  Some (fst second).

Definition rewrite_blocks (code : str) : option str :=
  replaceAsync code re_fence block_callback.

(** *** The generated sections *)

Definition GITHUB_BLOB_URL : str :=
  lit "https://github.com/vueuse/vueuse/blob/main/packages".

(** The separator of the source links, a bullet between two spaces.  The
    bullet (U+2022) lies outside the modelled range and stands here as its
    three UTF-8 bytes; no pattern of the plugin looks at it. *)
Definition bullet_sep : str :=
  lit " " ++ map ascii_of_nat [226; 128; 162] ++ lit " ".

Definition typing_code (types : str) : str :=
  lines [ lit "```typescript twoslash";
          lit "// @include: imports";
          trim types;
          lit "```" ].

Definition typingSection (types : option str) : str :=
  match types with
  | Some ((_ :: _) as t) =>
      if 1000 <? length t then
        lines [ [];
                lit "## Type Declarations";
                [];
                lit "<details>";
                lit "<summary op50 italic cursor-pointer select-none>Show Type Declarations</summary>";
                [];
                typing_code t;
                [];
                lit "</details>";
                [] ]
      else
        lines [ []; lit "## Type Declarations"; []; typing_code t ]
  | _ => []
  end.

Definition link (label target : str) : str :=
  lit "[" ++ label ++ lit "](" ++ target ++ lit ")".

Definition source_links (URL : str) (demoPath : option str) : str :=
  join bullet_sep
       ([link (lit "Source") (URL ++ lit "/index.ts")]
          ++ match demoPath with
             | Some d => [link (lit "Demo") (URL ++ lit "/" ++ d)]
             | None => []
             end
          ++ [link (lit "Docs") (URL ++ lit "/index.md")]).

Definition demo_source_link (URL demoPath : str) : str :=
  lit "<p class=" ++ [dq] ++ lit "demo-source-link" ++ [dq]
      ++ lit "><a href=" ++ [dq] ++ URL ++ lit "/" ++ demoPath ++ [dq]
      ++ lit " target=" ++ [dq] ++ lit "_blank" ++ [dq]
      ++ lit ">source</a></p>".

Definition demoSection (URL : str) (demoPath : option str) : str :=
  match demoPath with
  | None => []
  | Some d =>
      if endsWith d (lit ".client.vue") then
        lines [ [];
                lit "<script setup>";
                lit "import { defineAsyncComponent } from 'vue'";
                lit "const Demo = defineAsyncComponent(() => import('./"
                    ++ d ++ lit "'))";
                lit "</script>";
                [];
                lit "## Demo";
                [];
                lit "<DemoContainer>";
                demo_source_link URL d;
                lit "<ClientOnly>";
                lit "  <Suspense>";
                lit "    <Demo/>";
                lit "    <template #fallback>";
                lit "      Loading demo...";
                lit "    </template>";
                lit "  </Suspense>";
                lit "</ClientOnly>";
                lit "</DemoContainer>";
                [] ]
      else
        lines [ [];
                lit "<script setup>";
                lit "import Demo from './" ++ d ++ lit "'";
                lit "</script>";
                [];
                lit "## Demo";
                [];
                lit "<DemoContainer>";
                demo_source_link URL d;
                lit "<Demo/>";
                lit "</DemoContainer>";
                [] ]
  end.

(** [getFunctionMarkdown]: the footer and the header of a function page.
    The two [console.warn] calls leave no trace in the result. *)
Definition getFunctionMarkdown (pkg name : str) : option (str * str) :=
  let URL := GITHUB_BLOB_URL ++ lit "/" ++ pkg ++ lit "/" ++ name in
  let dirname := path_join [DIR_SRC; pkg; name] in
  let demoPath :=
    find (fun i => existsSync (path_join [dirname; i]))
         [lit "demo.vue"; lit "demo.client.vue"] in
  types <- getTypeDefinition pkg name ;;
  let sourceSection :=
    lines [ lit "## Source"; []; source_links URL demoPath; [] ] in
  let ContributorsSection :=
    lines [ [];
            lit "## Contributors";
            [];
            lit "<Contributors fn=" ++ [dq] ++ name ++ [dq] ++ lit " />";
            lit "  " ] in
  let changelogSection :=
    lines [ [];
            lit "## Changelog";
            [];
            lit "<Changelog fn=" ++ [dq] ++ name ++ [dq] ++ lit " />";
            [] ] in
  p <- find (fun p => str_eqb (pkg_name p) pkg) packages ;;
  let packageNote :=
    if pkg_addon p then
      lines [ lit "Available in the <a href=" ++ [dq] ++ lit "/" ++ pkg
                  ++ lit "/README" ++ [dq] ++ lit ">@vueuse/" ++ pkg
                  ++ lit "</a> add-on.";
              [] ]
    else [] in
  let footer :=
    lines [ typingSection types; []; sourceSection; ContributorsSection;
            changelogSection; [] ] in
  let header := demoSection URL demoPath ++ packageNote in
  Some (footer, header).

(** *** The transform hook *)

(** [functionNames.find(n => n.toLowerCase() === _name.toLowerCase())
    || _name].  On an [undefined] [_name] the first call of the predicate
    throws, so the expression has a value only over an empty registry. *)
Definition resolve_name (_name : option str) : option (option str) :=
  match _name with
  | Some n =>
      match find (fun x => str_eqb (toLowerCase x) (toLowerCase n))
                 functionNames with
      | Some ((_ :: _) as x) => Some (Some x)
      | _ => Some (Some n)
      end
  | None =>
      match functionNames with
      | [] => Some None
      | _ :: _ => None
      end
  end.

Definition is_index_md (i : option str) : bool :=
  match i with
  | Some v => str_eqb v (lit "index.md")
  | None => false
  end.

(** The body of [if (functionNames.includes(name) && i === 'index.md')].
    The registry's names hold no [$], so the replacement strings built
    from [name] hold no pattern but [$1]. *)
Definition function_page (code pkg name : str) : option str :=
  let frontmatterEnds := indexOf code (lit "---" ++ [nl; nl]) in
  let firstHeader := search re_header code in
  let sliceIndex :=
    if (firstHeader <? 0)%Z
    then if (frontmatterEnds <? 0)%Z then 0%Z else (frontmatterEnds + 4)%Z
    else firstHeader in
  code <- rewrite_blocks code ;;
  fm <- getFunctionMarkdown pkg name ;;
  let footer := fst fm in
  let header := snd fm in
  let code :=
    if hasTypes then replacer code footer (lit "FOOTER") (lit "tail")
    else code in
  let code :=
    match header with
    | _ :: _ =>
        firstn (Z.to_nat sliceIndex) code ++ header
               ++ skipn (Z.to_nat sliceIndex) code
    | [] => code
    end in
  let code :=
    replace_first re_title
      (fun m =>
         lines [ show (m_group m 1);
                 [];
                 lit "<FunctionInfo fn=" ++ [dq] ++ name ++ [dq] ++ lit "/>";
                 [] ])
      code in
  let code :=
    replace_first re_components
      (fun m =>
         lines [ lit "## " ++ show (m_group m 1);
                 lit "<LearnMoreComponents />"; []; [] ])
      code in
  let code :=
    replace_first re_directives
      (fun m =>
         lines [ lit "## " ++ show (m_group m 1);
                 lit "<LearnMoreDirectives />"; []; [] ])
      code in
  Some code.

(** [transform(code, id)]: [Some None] is the hook's [null], [None] a
    rejected promise. *)
Definition transform (code id : str) : option (option str) :=
  if negb (test re_md id) then Some None
  else
    code <- rewrite_links code ;;
    let parts := slice_last 3 (split_on "/" id) in
    let pkg := nth_error parts 0 in
    let _name := nth_error parts 1 in
    let i := nth_error parts 2 in
    name <- resolve_name _name ;;
    if includes functionNames name && is_index_md i then
      code <- function_page code (show pkg) (show name) ;;
      Some (Some code)
    else Some (Some code).

End Plugin.

(** ** Vocabulary of the specification *)

(** The matches of a walk, and the text between them: a walk with [N]
    matches has [N + 1] gaps. *)
Fixpoint hits (ps : list piece) : list rmatch :=
  match ps with
  | [] => []
  | Keep _ :: ps' => hits ps'
  | Hit m :: ps' => m :: hits ps'
  end.

Fixpoint gaps (ps : list piece) : list str :=
  match ps with
  | [] => [[]]
  | Keep c :: ps' =>
      match gaps ps' with
      | g :: gs => (c :: g) :: gs
      | [] => [[c]]
      end
  | Hit _ :: ps' => [] :: gaps ps'
  end.

(** [g0 ++ x1 ++ g1 ++ ... ++ xN ++ gN] *)
Fixpoint interleave (gs xs : list str) : str :=
  match gs with
  | [] => []
  | g :: gs' =>
      match xs with
      | x :: xs' => g ++ x ++ interleave gs' xs'
      | [] => g
      end
  end.

(** The text a walk was made over, read back from its pieces. *)
Fixpoint pieces_src (ps : list piece) : str :=
  match ps with
  | [] => []
  | Keep c :: ps' => c :: pieces_src ps'
  | Hit m :: ps' => m_text m ++ pieces_src ps'
  end.

(** The TypeScript blocks of a document, left to right, and the text outside
    them. *)
Definition fences (code : str) : list rmatch := hits (scan re_fence [] code 0).
Definition outside_fences (code : str) : list str :=
  gaps (scan re_fence [] code 0).

Definition block_meta (m : rmatch) : str := default (m_group m 1).
Definition block_body (m : rmatch) : str := default (m_group m 2).

(** The annotation group, when it takes part: a space and a non-empty run
    without a newline. *)
Definition meta_ok (mo : option str) : Prop :=
  match mo with
  | None => True
  | Some meta =>
      exists m1, meta = " "%char :: m1 /\ m1 <> [] /\ forallb not_nl m1 = true
  end.

(** The body group: non-empty, and no closing fence line starts inside it
    (the lazy quantifier stops at the first one). *)
Definition body_ok (body : str) : Prop :=
  body <> []
  /\ forall n, 0 < n < length body ->
               strip_prefix fence_close (skipn n body ++ fence_close) = None.

Definition fence_caps (mo : option str) (body : str) : caps :=
  (2, body) :: match mo with Some v => [(1, v)] | None => [] end.

Definition fence_text (mo : option str) (body : str) : str :=
  fence_open ++ default mo ++ nl :: body ++ fence_close.

(** What is left of the fence pattern after the annotation, for an attempt
    that started on the text [a0] at the index [i]. *)
Definition fence_tail (a0 : str) (i : nat) (b a : str) (cs : caps)
  : option rmatch :=
  run (Seqs [Chr (is_char nl); Grp 2 (PlusLazy any_char); Lit fence_close])
      b a cs
      (fun _ a' cs' => Some (MkMatch i (firstn (length a0 - length a') a0) cs')).

(** The fence of the TS pane of a toggle, as the text that a second walk
    would read. *)
Definition ts_pane (meta snippet : str) : str :=
  lines [ []; lit "```ts " ++ meta; snippet; lit "```"; [] ].

(** One pane of a toggle: the marker element around a fenced block. *)
Definition pane (cls fence body : str) : str :=
  lines [ lit "<div class=" ++ [dq] ++ lit "code-block-" ++ cls ++ [dq]
              ++ lit ">";
          [];
          lit "```" ++ fence;
          body;
          lit "```";
          [];
          lit "</div>";
          [] ].

(** The space-separated tokens of a fence annotation. *)
Definition tokens (meta : str) : list str := split_on " " meta.

Definition has_twoslash_token (meta : str) : bool :=
  existsb (fun t => str_eqb (toLowerCase t) (lit "twoslash")) (tokens meta).

(** The annotation is the flag and nothing else: the word [twoslash], in any
    case, between white space. *)
Definition flag_only (meta : str) : Prop :=
  exists pre t post,
    meta = pre ++ t ++ post
    /\ forallb is_space pre = true
    /\ forallb is_space post = true
    /\ toLowerCase t = lit "twoslash".

Section Vocabulary.
Variable format : str -> FormatOptions -> option str.
Variable transpileModule : str -> nat -> option str.
Variable twoslasher : str -> str -> option str.
Variable functionNames : list str.

(** The decision a block ends with, and the text it stands for. *)
Definition decide (meta snippet : str) : option Decision :=
  s <- prepare twoslasher meta snippet ;;
  formattedTS <- formatTS format s ;;
  formattedJS <- formatJS format transpileModule formattedTS ;;
  Some (if str_eqb formattedJS formattedTS then Unchanged
        else Diverged s formattedJS).

Definition render (whole meta : str) (d : Decision) : str :=
  match d with
  | Unchanged => whole
  | Diverged tsPane jsPane => toggle meta tsPane jsPane
  end.

(** The decisions of a walk of the block rewriter over [text]. *)
Definition decisions (text : str) : list (option Decision) :=
  map (fun m => decide (block_meta m) (block_body m)) (fences text).

(** The path ends in the directory of a registered function, whatever the
    case of its letters, followed by [index.md]. *)
Definition ends_in_function_dir (id : str) : bool :=
  match rev (split_on "/" id) with
  | i :: d :: _ =>
      str_eqb i (lit "index.md")
      && existsb (fun n => str_eqb (toLowerCase n) (toLowerCase d))
                 functionNames
  | _ => false
  end.
End Vocabulary.

(** Runs of newlines collapsed to one newline: a newline is dropped when
    another one follows it. *)
Fixpoint squeeze (s : str) : str :=
  match s with
  | [] => []
  | c :: s' =>
      if is_char nl c then
        match s' with
        | d :: _ => if is_char nl d then squeeze s' else c :: squeeze s'
        | [] => [c]
        end
      else c :: squeeze s'
  end.

(** Two newlines in a row somewhere in the text. *)
Fixpoint has_blank_line (s : str) : bool :=
  match s with
  | c :: s' =>
      match s' with
      | d :: _ => (is_char nl c && is_char nl d) || has_blank_line s'
      | [] => false
      end
  | [] => false
  end.

(** The length of the run of newlines a text starts with. *)
Fixpoint nl_run (a : str) : nat :=
  match a with
  | c :: a' => if is_char nl c then S (nl_run a') else 0
  | [] => 0
  end.

(** No white space at either end. *)
Definition trimmed (s : str) : Prop :=
  match s with c :: _ => is_space c = false | [] => True end
  /\ match rev s with c :: _ => is_space c = false | [] => True end.

(** The first character, if any, is not white space. *)
Definition starts_clean (s : str) : Prop :=
  match s with c :: _ => is_space c = false | [] => True end.

(** [out] is [s] with every match of [r] replaced by some text and all the
    text between the matches kept. *)
Definition same_gaps (r : re) (s out : str) : Prop :=
  exists rs,
    length rs = length (hits (scan r [] s 0))
    /\ s = interleave (gaps (scan r [] s 0))
                      (map m_text (hits (scan r [] s 0)))
    /\ out = interleave (gaps (scan r [] s 0)) rs.

(** ** A sample environment

    Finite stand-ins for the external tools, enough to run the plugin on the
    documents of the examples below.  The formatter and the transpiler are
    given by what prettier and tsc answer on the snippets used. *)
Module Sample.

Fixpoint lookup (t : list (str * str)) (k : str) : option str :=
  match t with
  | [] => None
  | (k', v) :: t' => if str_eqb k k' then Some v else lookup t' k
  end.

Definition query : str := lit "//    ^?".

Definition format (s : str) (_ : FormatOptions) : option str :=
  lookup
    [ (lit "const a: number = 1", lit "const a: number = 1" ++ [nl]);
      (lit "const a = 1", lit "const a = 1" ++ [nl]);
      (lit "const a = 1;" ++ [nl], lit "const a = 1" ++ [nl]);
      (lit "const a = 1" ++ [nl] ++ query,
       lit "const a = 1" ++ [nl] ++ query ++ [nl]);
      (lit "const a: number = 1" ++ [nl] ++ query,
       lit "const a: number = 1" ++ [nl] ++ query ++ [nl]);
      (lit "const a = 1;" ++ [nl] ++ query ++ [nl],
       lit "const a = 1" ++ [nl] ++ query ++ [nl]);
      (lit "a" ++ [nl] ++ lit "b", lit "a" ++ [nl] ++ lit "b" ++ [nl]);
      (lit "a;" ++ [nl] ++ lit "b;" ++ [nl],
       lit "a" ++ [nl] ++ lit "b" ++ [nl]);
      (lit "a;" ++ [nl; nl] ++ lit "b;" ++ [nl],
       lit "a" ++ [nl; nl] ++ lit "b" ++ [nl]) ]
    s.

Definition transpileModule (s : str) (_ : nat) : option str :=
  lookup
    [ (lit "const a: number = 1", lit "const a = 1;" ++ [nl]);
      (lit "const a = 1", lit "const a = 1;" ++ [nl]);
      (lit "const a: number = 1" ++ [nl] ++ query,
       lit "const a = 1;" ++ [nl] ++ query ++ [nl]) ]
    s.

(** A stripper that removes a type query under a line. *)
Definition twoslasher (s : str) (_ : str) : option str :=
  match lookup
          [ (lit "const a: number = 1" ++ [nl] ++ query,
             lit "const a: number = 1");
            (lit "const a = 1" ++ [nl] ++ query, lit "const a = 1") ]
          s with
  | Some v => Some v
  | None => Some s
  end.

Definition functionNames : list str :=
  [lit "useMouse"; lit "useStorage"; lit "useTitle"].

Definition getFunction (name : str) : option VueUseFunction :=
  if existsb (str_eqb name) functionNames
  then Some {| fn_name := name;
               fn_docs := Some (lit "https://vueuse.org/core/" ++ name
                                    ++ lit "/") |}
  else None.

Definition packages : list PackageManifest :=
  [ {| pkg_name := lit "core"; pkg_addon := false |};
    {| pkg_name := lit "integrations"; pkg_addon := true |} ].

Definition getTypeDefinition (_ _ : str) : option (option str) := Some None.

Definition replacer (code value key insert : str) : str :=
  lines [ code; [];
          lit "<!--" ++ key ++ lit "_STARTS-->"; value;
          lit "<!--" ++ key ++ lit "_ENDS-->" ].

Definition existsSync (_ : str) : bool := false.
Definition path_join (l : list str) : str := join (lit "/") l.
Definition DIR_TYPES : str := lit "/repo/types/packages".
Definition DIR_SRC : str := lit "/repo/packages".

Definition transform : str -> str -> option (option str) :=
  transform format transpileModule twoslasher functionNames getFunction
            packages getTypeDefinition replacer existsSync path_join
            DIR_TYPES DIR_SRC.

(** A fenced block as it stands in a document. *)
Definition fence (meta body : str) : str :=
  lines [ []; lit "```ts" ++ meta; body; lit "```"; [] ].

End Sample.

(** ** The documents of the examples *)

Module Cases.

Definition typed : str := lit "const a: number = 1".
Definition untyped : str := lit "const a = 1".
Definition broken : str := lit "const a: = 1".
Definition typed_query : str := typed ++ [nl] ++ Sample.query.
Definition untyped_query : str := untyped ++ [nl] ++ Sample.query.
Definition flag : str := lit " twoslash".

(** A function page with a sound block and a block prettier rejects. *)
Definition two_blocks : str :=
  lit "# useMouse" ++ Sample.fence [] typed ++ lit "text"
      ++ Sample.fence [] broken ++ lit "end".

Definition page_id : str := lit "/repo/packages/core/useMouse/index.md".
Definition guide_id : str := lit "/repo/packages/guide/index.md".

(** The second block of [two_blocks]. *)
Definition broken_block : rmatch :=
  MkMatch 45 (Sample.fence [] broken) [(2, broken)].

(** A block with an annotation that is not the flag. *)
Definition demo_block : rmatch :=
  MkMatch 0 (Sample.fence (lit " demo") typed) [(2, typed); (1, lit " demo")].

(** A document with a linked name, a site URL and a block. *)
Definition linked_page : str :=
  lit "see `useStorage`. and https://vueuse.org/guide"
      ++ Sample.fence [] typed ++ lit "end".

Definition from_some (x : option str) : str :=
  match x with
  | Some v => v
  | None => []
  end.

End Cases.

(** ** Further vocabulary *)

(** The matches lie one after the other from the index [i] on: each starts
    at or after the end of the one before. *)
Fixpoint ordered_from (i : nat) (ms : list rmatch) : Prop :=
  match ms with
  | [] => True
  | m :: ms' =>
      i <= m_index m /\ ordered_from (m_index m + length (m_text m)) ms'
  end.

(** The text does not go on with a word character. *)
Definition starts_nonword (s : str) : Prop :=
  match s with c :: _ => is_word c = false | [] => True end.

(** The id holds [.md] at the end of a word: what [/\.md\b/] looks for. *)
Definition md_id (id : str) : Prop :=
  exists pre post, id = pre ++ lit ".md" ++ post /\ starts_nonword post.

(** [out] is [s] with text added: the characters of [s] are all in [out],
    in their order. *)
Inductive only_adds : str -> str -> Prop :=
| adds_end : only_adds [] []
| adds_keep (c : ascii) (s out : str) :
    only_adds s out -> only_adds (c :: s) (c :: out)
| adds_new (c : ascii) (s out : str) :
    only_adds s out -> only_adds s (c :: out).

(** The text after the footer step of a function page, which is the work of
    [replacer] when the directory of the type declarations exists. *)
Definition footer_step (hasTypes : bool)
           (replacer : str -> str -> str -> str -> str)
           (code footer : str) : str :=
  if hasTypes then replacer code footer (lit "FOOTER") (lit "tail") else code.

(** ** Further documents of the examples *)

Module MoreCases.

(** A page whose only block needs no toggle. *)
Definition quiet_page : str :=
  lit "# useMouse" ++ Sample.fence [] Cases.untyped ++ lit "end".

(** The block of [quiet_page]. *)
Definition quiet_block : rmatch :=
  MkMatch 10 (Sample.fence [] Cases.untyped) [(2, Cases.untyped)].

(** The page of [useMouse], its directory written in small letters. *)
Definition lower_page_id : str :=
  lit "/repo/packages/core/usemouse/index.md".

(** The footer of the function page of [useMouse]. *)
Definition mouse_footer : str :=
  match getFunctionMarkdown Sample.packages Sample.getTypeDefinition
                            Sample.existsSync Sample.path_join Sample.DIR_SRC
                            (lit "core") (lit "useMouse") with
  | Some (footer, _) => footer
  | None => []
  end.

End MoreCases.

(** A block whose body holds a template literal with a blank line between
    two CRLF line ends, and what prettier and tsc answer on it: prettier
    reads every line end as LF, tsc leaves the text of a template literal as
    it is. *)
Module TemplateCase.

Definition cr : ascii := ascii_of_nat 13.

Definition body : str := lit "const s = `x" ++ [cr; nl; cr; nl] ++ lit "y`".

(** What prettier prints for [body]. *)
Definition printed : str := lit "const s = `x" ++ [nl; nl] ++ lit "y`".

(** What tsc emits for [printed]. *)
Definition emitted : str := printed ++ lit ";" ++ [nl].

(** What prettier prints for [emitted] once its runs of newlines are
    collapsed. *)
Definition collapsed : str := lit "const s = `x" ++ [nl] ++ lit "y`".

Definition format (s : str) (_ : FormatOptions) : option str :=
  Sample.lookup
    [ (body, printed ++ [nl]);
      (emitted, printed ++ [nl]);
      (collapsed ++ lit ";" ++ [nl], collapsed ++ [nl]) ]
    s.

Definition transpileModule (s : str) (_ : nat) : option str :=
  Sample.lookup [ (printed, emitted) ] s.

Definition page : str := lit "# useMouse" ++ Sample.fence [] body ++ lit "end".

End TemplateCase.

(** The sample environment on a site whose directories all exist: the type
    declarations are there, and so is the demo of every function. *)
Module TypedSite.

Definition existsSync (_ : str) : bool := true.

Definition transform : str -> str -> option (option str) :=
  transform Sample.format Sample.transpileModule Sample.twoslasher
            Sample.functionNames Sample.getFunction Sample.packages
            Sample.getTypeDefinition Sample.replacer existsSync
            Sample.path_join Sample.DIR_TYPES Sample.DIR_SRC.

(** A function page with a title, a usage heading, a linked name, a site
    URL and a block. *)
Definition page : str :=
  lines [ lit "# useMouse";
          [];
          lit "## Components Usage";
          [];
          lit "see `useStorage`. and https://vueuse.org/guide";
          lit "```ts";
          Cases.typed;
          lit "```";
          lit "end" ].

Definition from_page (x : option (option str)) : str :=
  match x with
  | Some (Some v) => v
  | _ => []
  end.

End TypedSite.

(** ** The engine: a match is a prefix of the text at the cursor *)

Section EngineFacts.
Context {R : Type}.

Lemma plus_greedy_from_k (p : ascii -> bool) (k : @kont R) :
  forall a b x, plus_greedy p b a k = Some x ->
                exists b' a', k b' a' = Some x.
Proof.
  induction a as [|c a IH]; intros b x H; simpl in H; [discriminate|].
  destruct (p c); [|discriminate].
  destruct (plus_greedy p (c :: b) a k) eqn:E.
  - inversion H; subst. eapply IH; eauto.
  - eauto.
Qed.

Lemma plus_lazy_from_k (p : ascii -> bool) (k : @kont R) :
  forall a b x, plus_lazy p b a k = Some x ->
                exists b' a', k b' a' = Some x.
Proof.
  induction a as [|c a IH]; intros b x H; simpl in H; [discriminate|].
  destruct (p c); [|discriminate].
  destruct (k (c :: b) a) eqn:E.
  - inversion H; subst. eauto.
  - eapply IH; eauto.
Qed.

Lemma rep_greedy_from_k (p : ascii -> bool) (k : @kont R) :
  forall hi lo a b x, rep_greedy p lo hi b a k = Some x ->
                      exists b' a', k b' a' = Some x.
Proof.
  induction hi as [|hi IH]; intros lo a b x H; simpl in H.
  - destruct (lo =? 0); [eauto | discriminate].
  - destruct a as [|c a].
    + destruct (lo =? 0); [eauto | discriminate].
    + destruct (p c).
      * destruct (rep_greedy p (pred lo) hi (c :: b) a k) eqn:E.
        -- inversion H; subst. eapply IH; eauto.
        -- destruct (lo =? 0); [eauto | discriminate].
      * destruct (lo =? 0); [eauto | discriminate].
Qed.

Lemma run_from_k (r : re) :
  forall b a cs (k : str -> str -> caps -> option R) x,
    run r b a cs k = Some x ->
    exists b' a' cs', k b' a' cs' = Some x.
Proof.
  induction r; intros b a cs k x H; simpl in H.
  - eauto.
  - destruct a as [|c a]; [discriminate|].
    destruct (p c); [eauto | discriminate].
  - apply IHr1 in H. destruct H as (b1 & a1 & cs1 & H).
    apply IHr2 in H. exact H.
  - destruct (run r1 b a cs k) eqn:E.
    + inversion H; subst. eapply IHr1; eauto.
    + eapply IHr2; eauto.
  - destruct (run r b a cs k) eqn:E.
    + inversion H; subst. eapply IHr; eauto.
    + eauto.
  - apply plus_greedy_from_k in H. destruct H as (b' & a' & H). eauto.
  - apply plus_lazy_from_k in H. destruct H as (b' & a' & H). eauto.
  - apply rep_greedy_from_k in H. destruct H as (b' & a' & H). eauto.
  - apply IHr in H. destruct H as (b' & a' & cs' & H). eauto.
  - destruct (at_boundary b a); [eauto | discriminate].
  - discriminate.
Qed.
End EngineFacts.

Lemma exec_at_text (r : re) (b a : str) (m : rmatch) :
  exec_at r b a = Some m ->
  m_index m = length b /\ exists n, m_text m = firstn n a.
Proof.
  unfold exec_at. intros H.
  apply run_from_k in H. destruct H as (b' & a' & cs' & H).
  inversion H; subst; simpl. split; [reflexivity | eauto].
Qed.

(** ** The walk: what it leaves and what it finds make up the text *)

Lemma firstn_skipn_length {A : Type} (n : nat) (l : list A) :
  firstn n l ++ skipn (length (firstn n l)) l = l.
Proof.
  rewrite length_firstn.
  destruct (Nat.le_ge_cases n (length l)) as [H|H].
  - rewrite Nat.min_l by exact H. apply firstn_skipn.
  - rewrite Nat.min_r by exact H.
    rewrite skipn_all. rewrite firstn_all2 by exact H. apply app_nil_r.
Qed.

Lemma scan_src (r : re) :
  forall a b n, pieces_src (scan r b a n) = skipn n a.
Proof.
  induction a as [|c a IH]; intros b n.
  - destruct n; simpl; [|reflexivity].
    destruct (exec_at r b []) eqn:E; [|reflexivity].
    apply exec_at_text in E. destruct E as (_ & k & E).
    simpl. rewrite E. rewrite firstn_nil. reflexivity.
  - destruct n as [|n]; simpl.
    + destruct (exec_at r b (c :: a)) eqn:E.
      * apply exec_at_text in E. destruct E as (_ & k & E).
        simpl.
        destruct (length (m_text r0)) as [|j] eqn:L.
        -- apply length_zero_iff_nil in L. rewrite L. simpl.
           rewrite IH. reflexivity.
        -- rewrite IH.
           change (skipn j a) with (skipn (S j) (c :: a)).
           rewrite <- L. rewrite E. apply firstn_skipn_length.
      * simpl. rewrite IH. reflexivity.
    + apply IH.
Qed.

Lemma gaps_length (ps : list piece) : length (gaps ps) = S (length (hits ps)).
Proof.
  induction ps as [|[c|m] ps IH]; simpl.
  - reflexivity.
  - destruct (gaps ps); simpl in *; [discriminate | exact IH].
  - rewrite IH. reflexivity.
Qed.

Lemma interleave_keep (c : ascii) (ps : list piece) (xs : list str) :
  interleave (gaps (Keep c :: ps)) xs = c :: interleave (gaps ps) xs.
Proof.
  simpl. pose proof (gaps_length ps) as L.
  destruct (gaps ps) as [|g gs]; [discriminate|].
  simpl. destruct xs; reflexivity.
Qed.

Lemma interleave_src (ps : list piece) :
  interleave (gaps ps) (map m_text (hits ps)) = pieces_src ps.
Proof.
  induction ps as [|[c|m] ps IH].
  - reflexivity.
  - rewrite interleave_keep. simpl. rewrite IH. reflexivity.
  - simpl. rewrite IH. reflexivity.
Qed.

(** ** The two walks of [replaceAsync] *)

Lemma promise_all_length {A : Type} (ps : list (option A)) (xs : list A) :
  promise_all ps = Some xs -> length xs = length ps.
Proof.
  revert xs. induction ps as [|p ps IH]; intros xs H; simpl in H.
  - inversion H. reflexivity.
  - destruct p as [x|]; simpl in H; [|discriminate].
    destruct (promise_all ps) as [ys|]; simpl in H; [|discriminate].
    inversion H; subst. simpl. rewrite (IH ys); reflexivity.
Qed.

Lemma promise_all_Forall2 {A B : Type} (f : A -> option B) (l : list A)
      (xs : list B) :
  promise_all (map f l) = Some xs <-> Forall2 (fun a x => f a = Some x) l xs.
Proof.
  revert xs. induction l as [|a l IH]; intros xs; simpl.
  - split; intros H.
    + inversion H. constructor.
    + inversion H. reflexivity.
  - split; intros H.
    + destruct (f a) as [x|] eqn:E; simpl in H; [|discriminate].
      destruct (promise_all (map f l)) as [ys|] eqn:P; simpl in H;
        [|discriminate].
      inversion H; subst. constructor; [exact E|]. apply IH. reflexivity.
    + inversion H as [|a' x l' ys Hf Hr]; subst.
      rewrite Hf. simpl. apply IH in Hr. rewrite Hr. reflexivity.
Qed.

Lemma promise_all_None {A B : Type} (f : A -> option B) (l : list A) (a : A) :
  In a l -> f a = None -> promise_all (map f l) = None.
Proof.
  induction l as [|y l IH]; intros Hin Hf; [contradiction|].
  simpl. destruct Hin as [->|Hin].
  - rewrite Hf. reflexivity.
  - destruct (f y); simpl; [|reflexivity].
    rewrite (IH Hin Hf). reflexivity.
Qed.

Lemma first_walk (cb : rmatch -> option str) (ps : list piece) :
  forall acc,
  exists out,
    fold_pieces (push_promise cb) ps acc = Some (out, acc ++ map cb (hits ps)).
Proof.
  induction ps as [|[c|m] ps IH]; intros acc; cbn [fold_pieces hits map].
  - exists []. rewrite app_nil_r. reflexivity.
  - destruct (IH acc) as (out & ->). eauto.
  - unfold push_promise at 1.
    destruct (IH (acc ++ [cb m])) as (out & ->).
    rewrite <- app_assoc. simpl. eauto.
Qed.

Lemma second_walk (ps : list piece) :
  forall rs : list str,
    length rs = length (hits ps) ->
    fold_pieces shift_replacement ps rs = Some (interleave (gaps ps) rs, []).
Proof.
  induction ps as [|[c|m] ps IH]; intros rs L.
  - destruct rs; [reflexivity | discriminate].
  - rewrite interleave_keep. cbn [fold_pieces].
    rewrite (IH rs L). reflexivity.
  - destruct rs as [|x rs]; [discriminate|].
    simpl in L. injection L as L.
    cbn [fold_pieces shift_replacement gaps interleave app].
    rewrite (IH rs L). reflexivity.
Qed.

Lemma replaceAsync_spec (s : str) (r : re) (cb : rmatch -> option str) :
  replaceAsync s r cb
  = (rs <- promise_all (map cb (hits (scan r [] s 0))) ;;
     Some (interleave (gaps (scan r [] s 0)) rs)).
Proof.
  unfold replaceAsync, replace_all.
  destruct (first_walk cb (scan r [] s 0) []) as (out & ->).
  simpl.
  destruct (promise_all (map cb (hits (scan r [] s 0)))) as [rs|] eqn:P;
    simpl; [|reflexivity].
  apply promise_all_length in P. rewrite length_map in P.
  rewrite (second_walk _ rs P). reflexivity.
Qed.

(** ** The fence pattern, read off the engine *)

Lemma is_char_refl (c : ascii) : is_char c c = true.
Proof. unfold is_char. apply Ascii.eqb_refl. Qed.

Lemma is_char_eq (x c : ascii) : is_char x c = true -> c = x.
Proof. unfold is_char. apply Ascii.eqb_eq. Qed.

Lemma strip_prefix_app (p s : str) : strip_prefix p (p ++ s) = Some s.
Proof.
  induction p as [|x p IH]; simpl; [reflexivity|].
  rewrite is_char_refl. exact IH.
Qed.

Lemma strip_prefix_inv (p : str) :
  forall s s', strip_prefix p s = Some s' -> s = p ++ s'.
Proof.
  induction p as [|x p IH]; intros s s' H; simpl in H.
  - inversion H. reflexivity.
  - destruct s as [|y s]; [discriminate|].
    destruct (is_char x y) eqn:E; [|discriminate].
    apply is_char_eq in E. subst y. simpl. f_equal. apply IH. exact H.
Qed.

(** Whether [p] is a prefix is settled by the first [length p] characters. *)
Lemma strip_prefix_None_app (p : str) :
  forall x y, length p <= length x ->
              (strip_prefix p (x ++ y) = None <-> strip_prefix p x = None).
Proof.
  induction p as [|c p IH]; intros x y L; simpl.
  - split; discriminate.
  - destruct x as [|d x]; simpl in *; [lia|].
    destruct (is_char c d); [|tauto].
    apply IH. lia.
Qed.

Lemma run_Lit {R : Type} (p : str) :
  forall b a cs (k : str -> str -> caps -> option R),
    run (Lit p) b a cs k
    = match strip_prefix p a with
      | Some a' => k (rev p ++ b) a' cs
      | None => None
      end.
Proof.
  induction p as [|x p IH]; intros b a cs k; simpl.
  - reflexivity.
  - destruct a as [|y a]; [reflexivity|].
    destruct (is_char x y) eqn:E; [|reflexivity].
    rewrite IH. apply is_char_eq in E. subst y.
    rewrite <- app_assoc. reflexivity.
Qed.

Lemma plus_greedy_max {R : Type} (p : ascii -> bool) (k : @kont R) :
  forall m1 b rest,
    m1 <> [] ->
    forallb p m1 = true ->
    match rest with [] => True | c :: _ => p c = false end ->
    (forall n, 0 < n < length m1 ->
               k (rev (firstn n m1) ++ b) (skipn n m1 ++ rest) = None) ->
    plus_greedy p b (m1 ++ rest) k = k (rev m1 ++ b) rest.
Proof.
  induction m1 as [|c m1 IH]; intros b rest Hne Hall Hrest Hk;
    [congruence|].
  simpl in Hall. apply andb_prop in Hall. destruct Hall as [Hc Hall].
  simpl. rewrite Hc. rewrite <- app_assoc. simpl.
  destruct m1 as [|d m1].
  - simpl. destruct rest as [|e rest]; simpl.
    + reflexivity.
    + rewrite Hrest. reflexivity.
  - rewrite (IH (c :: b) rest); [| discriminate | exact Hall | exact Hrest |].
    + destruct (k (rev (d :: m1) ++ c :: b) rest) eqn:E; [reflexivity|].
      apply (Hk 1). simpl. lia.
    + intros n Hn. pose proof (Hk (S n)) as H.
      cbn [firstn skipn rev] in H. rewrite <- app_assoc in H.
      apply H. simpl in *. lia.
Qed.

Lemma plus_lazy_min {R : Type} (k : @kont R) :
  forall body b rest x,
    body <> [] ->
    (forall n, 0 < n < length body ->
               k (rev (firstn n body) ++ b) (skipn n body ++ rest) = None) ->
    k (rev body ++ b) rest = Some x ->
    plus_lazy any_char b (body ++ rest) k = Some x.
Proof.
  induction body as [|c body IH]; intros b rest x Hne Hmin Hk; [congruence|].
  destruct body as [|d body].
  - simpl in *. rewrite Hk. reflexivity.
  - assert (H1 : k (c :: b) ((d :: body) ++ rest) = None).
    { apply (Hmin 1). simpl. lia. }
    change (plus_lazy any_char b ((c :: d :: body) ++ rest) k)
      with (match k (c :: b) ((d :: body) ++ rest) with
            | Some y => Some y
            | None => plus_lazy any_char (c :: b) ((d :: body) ++ rest) k
            end).
    rewrite H1.
    apply IH.
    + discriminate.
    + intros n Hn. pose proof (Hmin (S n)) as H.
      cbn [firstn skipn rev] in H. rewrite <- app_assoc in H.
      apply H. simpl in *. lia.
    + cbn [rev] in Hk. rewrite <- app_assoc in Hk. exact Hk.
Qed.

Lemma plus_lazy_inv {R : Type} (k : @kont R) :
  forall a b x,
    plus_lazy any_char b a k = Some x ->
    exists body rest,
      a = body ++ rest /\ body <> []
      /\ k (rev body ++ b) rest = Some x
      /\ forall n, 0 < n < length body ->
                   k (rev (firstn n body) ++ b) (skipn n body ++ rest) = None.
Proof.
  induction a as [|c a IH]; intros b x H; simpl in H; [discriminate|].
  destruct (k (c :: b) a) eqn:E.
  - inversion H; subst. exists [c], a. simpl.
    repeat split; [discriminate | exact E |].
    intros n Hn. lia.
  - apply IH in H. destruct H as (body & rest & -> & Hne & Hk & Hmin).
    exists (c :: body), rest. simpl. rewrite <- app_assoc.
    repeat split; [discriminate | exact Hk |].
    intros [|n] Hn; [lia|].
    destruct n as [|n].
    + simpl. exact E.
    + change (firstn (S (S n)) (c :: body)) with (c :: firstn (S n) body).
      change (skipn (S (S n)) (c :: body)) with (skipn (S n) body).
      cbn [rev]. rewrite <- app_assoc. apply Hmin. simpl in Hn. lia.
Qed.

Lemma plus_greedy_inv {R : Type} (p : ascii -> bool) (k : @kont R) :
  forall a b x,
    plus_greedy p b a k = Some x ->
    exists m1 rest,
      a = m1 ++ rest /\ m1 <> [] /\ forallb p m1 = true
      /\ k (rev m1 ++ b) rest = Some x.
Proof.
  induction a as [|c a IH]; intros b x H; simpl in H; [discriminate|].
  destruct (p c) eqn:Hc; [|discriminate].
  destruct (plus_greedy p (c :: b) a k) eqn:E.
  - inversion H; subst. apply IH in E.
    destruct E as (m1 & rest & -> & Hne & Hall & Hk).
    exists (c :: m1), rest. simpl. rewrite Hc, Hall, <- app_assoc.
    repeat split; [discriminate | exact Hk].
  - exists [c], a. simpl. rewrite Hc.
    repeat split; [discriminate | exact H].
Qed.

Lemma fence_exec_staged (b a : str) :
  exec_at re_fence b a
  = run (Lit fence_open) b a []
        (fun b1 a1 cs1 =>
           run (Opt (Grp 1 re_annotation)) b1 a1 cs1
               (fence_tail a (length b))).
Proof. reflexivity. Qed.

Lemma firstn_app_minus {A : Type} (x y : list A) :
  firstn (length (x ++ y) - length y) (x ++ y) = x.
Proof.
  rewrite length_app. replace (length x + length y - length y) with (length x) by lia.
  rewrite firstn_app. rewrite Nat.sub_diag. rewrite firstn_all. simpl.
  apply app_nil_r.
Qed.

Lemma fence_close_length : length fence_close = 5.
Proof. reflexivity. Qed.

Lemma fence_tail_intro (a0 : str) (i : nat) (b body rest : str) (cs : caps) :
  body_ok body ->
  fence_tail a0 i b (nl :: body ++ fence_close ++ rest) cs
  = Some (MkMatch i (firstn (length a0 - length rest) a0) ((2, body) :: cs)).
Proof.
  intros [Hne Hmin]. unfold fence_tail.
  cbn [Seqs run]. rewrite is_char_refl.
  apply plus_lazy_min.
  - exact Hne.
  - intros n Hn. rewrite run_Lit.
    rewrite app_assoc.
    destruct (strip_prefix fence_close ((skipn n body ++ fence_close) ++ rest)) eqn:E; [|reflexivity].
    exfalso.
    assert (L : length fence_close <= length (skipn n body ++ fence_close)).
    { rewrite length_app. lia. }
    pose proof (proj2 (strip_prefix_None_app fence_close _ rest L) (Hmin n Hn)).
    congruence.
  - rewrite run_Lit. rewrite strip_prefix_app.
    rewrite firstn_app_minus. reflexivity.
Qed.

Lemma fence_tail_inv (a0 : str) (i : nat) (b a : str) (cs : caps) (m : rmatch) :
  fence_tail a0 i b a cs = Some m ->
  exists body rest,
    a = nl :: body ++ fence_close ++ rest
    /\ body_ok body
    /\ m = MkMatch i (firstn (length a0 - length rest) a0) ((2, body) :: cs).
Proof.
  unfold fence_tail. cbn [Seqs run]. intros H.
  destruct a as [|c a]; [discriminate|].
  destruct (is_char nl c) eqn:Ec; [|discriminate].
  apply is_char_eq in Ec. subst c.
  apply plus_lazy_inv in H.
  destruct H as (body & rest0 & -> & Hne & Hk & Hmin).
  rewrite run_Lit in Hk.
  destruct (strip_prefix fence_close rest0) as [rest|] eqn:E; [|discriminate].
  apply strip_prefix_inv in E. subst rest0.
  exists body, rest. split; [reflexivity|]. split.
  - split; [exact Hne|]. intros n Hn.
    specialize (Hmin n Hn). rewrite run_Lit in Hmin.
    assert (L : length fence_close <= length (skipn n body ++ fence_close)).
    { rewrite length_app. lia. }
    apply (proj1 (strip_prefix_None_app fence_close _ rest L)).
    rewrite <- app_assoc.
    destruct (strip_prefix fence_close (skipn n body ++ fence_close ++ rest));
      [discriminate | reflexivity].
  - rewrite firstn_app_minus in Hk. inversion Hk. reflexivity.
Qed.

Lemma fence_tail_not_nl (a0 : str) (i : nat) (b a : str) (cs : caps) (c : ascii) :
  not_nl c = true -> fence_tail a0 i b (c :: a) cs = None.
Proof.
  intros H. unfold fence_tail. cbn [Seqs run].
  unfold not_nl in H. unfold is_char.
  destruct (Ascii.eqb c nl); [discriminate | reflexivity].
Qed.

Lemma not_nl_nl : not_nl nl = false.
Proof. reflexivity. Qed.

Lemma fence_exec_intro (b : str) (mo : option str) (body rest : str) :
  meta_ok mo -> body_ok body ->
  exec_at re_fence b (fence_text mo body ++ rest)
  = Some (MkMatch (length b) (fence_text mo body) (fence_caps mo body)).
Proof.
  intros Hm Hb. rewrite fence_exec_staged. rewrite run_Lit.
  unfold fence_text at 1. rewrite <- app_assoc. rewrite strip_prefix_app.
  set (a := fence_text mo body ++ rest).
  assert (T : firstn (length a - length rest) a = fence_text mo body).
  { apply firstn_app_minus. }
  destruct mo as [meta|]; cbn [default app].
  - destruct Hm as (m1 & -> & Hne & Hall).
    cbn [run re_annotation app]. rewrite is_char_refl.
    repeat first [rewrite <- app_assoc | progress cbn [app]].
    rewrite plus_greedy_max.
    + rewrite fence_tail_intro by exact Hb. rewrite T.
      unfold fence_caps.
      replace (firstn _ _) with (" "%char :: m1); [reflexivity|].
      change (" "%char :: m1 ++ nl :: body ++ fence_close ++ rest)
        with ((" "%char :: m1) ++ (nl :: body ++ fence_close ++ rest)).
      symmetry. apply firstn_app_minus.
    + exact Hne.
    + exact Hall.
    + apply not_nl_nl.
    + intros n Hn.
      destruct (skipn n m1) as [|c t] eqn:E.
      * exfalso. apply (f_equal (@length _)) in E.
        rewrite length_skipn in E. simpl in E. lia.
      * cbn [app]. apply fence_tail_not_nl.
        assert (Hin : In c (skipn n m1)) by (rewrite E; left; reflexivity).
        rewrite forallb_forall in Hall. apply Hall.
        rewrite <- (firstn_skipn n m1). apply in_or_app. right. exact Hin.
  - cbn [run re_annotation]. unfold is_char at 1.
    change (Ascii.eqb nl " ") with false. cbv iota.
    repeat first [rewrite <- app_assoc | progress cbn [app]].
    rewrite fence_tail_intro by exact Hb. rewrite T. reflexivity.
Qed.

Lemma fence_exec_inv (b a : str) (m : rmatch) :
  exec_at re_fence b a = Some m ->
  exists mo body rest,
    meta_ok mo /\ body_ok body
    /\ a = fence_text mo body ++ rest
    /\ m = MkMatch (length b) (fence_text mo body) (fence_caps mo body).
Proof.
  rewrite fence_exec_staged. rewrite run_Lit. intros H.
  destruct (strip_prefix fence_open a) as [a1|] eqn:E; [|discriminate].
  apply strip_prefix_inv in E.
  cbn [run] in H.
  destruct (run re_annotation (rev fence_open ++ b) a1 []
                (fun b' a' cs' =>
                   fence_tail a (length b) b' a'
                              ((1, firstn (length a1 - length a') a1) :: cs')))
    as [x|] eqn:G.
  - inversion H; subst x. clear H.
    cbn [run re_annotation] in G.
    destruct a1 as [|c a2]; [discriminate|].
    destruct (is_char " " c) eqn:Ec; [|discriminate].
    apply is_char_eq in Ec. subst c.
    apply plus_greedy_inv in G.
    destruct G as (m1 & rest0 & -> & Hne & Hall & G).
    apply fence_tail_inv in G.
    destruct G as (body & rest & -> & Hb & ->).
    exists (Some (" "%char :: m1)), body, rest.
    assert (Ea : a = fence_text (Some (" "%char :: m1)) body ++ rest).
    { rewrite E. unfold fence_text.
      repeat first [rewrite <- app_assoc | progress cbn [app default]].
      reflexivity. }
    split; [exists m1; auto|]. split; [exact Hb|]. split; [exact Ea|].
    rewrite Ea at 1 2. rewrite firstn_app_minus.
    unfold fence_caps.
    change (" "%char :: m1 ++ nl :: body ++ fence_close ++ rest)
      with ((" "%char :: m1) ++ (nl :: body ++ fence_close ++ rest)).
    rewrite firstn_app_minus. reflexivity.
  - apply fence_tail_inv in H.
    destruct H as (body & rest & -> & Hb & ->).
    exists None, body, rest.
    assert (Ea : a = fence_text None body ++ rest).
    { rewrite E. unfold fence_text.
      repeat first [rewrite <- app_assoc | progress cbn [app default]].
      reflexivity. }
    split; [exact I|]. split; [exact Hb|]. split; [exact Ea|].
    rewrite Ea at 1 2. rewrite firstn_app_minus. reflexivity.
Qed.

Lemma hits_scan_exec (r : re) :
  forall a b n m,
    In m (hits (scan r b a n)) -> exists b' a', exec_at r b' a' = Some m.
Proof.
  induction a as [|c a IH]; intros b n m H.
  - destruct n; simpl in H; [|contradiction].
    destruct (exec_at r b []) eqn:E; simpl in H; [|contradiction].
    destruct H as [->|[]]. eauto.
  - destruct n as [|n]; simpl in H.
    + destruct (exec_at r b (c :: a)) eqn:E.
      * simpl in H. destruct H as [->|H]; [eauto|].
        destruct (length (m_text r0)); simpl in H; eapply IH; eauto.
      * simpl in H. eapply IH; eauto.
    + eapply IH; eauto.
Qed.

Lemma scan_skip_all (r : re) :
  forall a b, scan r b a (length a) = scan r (rev a ++ b) [] 0.
Proof.
  induction a as [|c a IH]; intros b.
  - reflexivity.
  - simpl. rewrite IH. rewrite <- app_assoc. reflexivity.
Qed.

Lemma fence_exec_end (b : str) : exec_at re_fence b [] = None.
Proof. reflexivity. Qed.

Lemma fences_of_fence_text (mo : option str) (body : str) :
  meta_ok mo -> body_ok body ->
  fences (fence_text mo body)
  = [MkMatch 0 (fence_text mo body) (fence_caps mo body)].
Proof.
  intros Hm Hb.
  pose proof (fence_exec_intro [] mo body [] Hm Hb) as E.
  rewrite app_nil_r in E.
  unfold fences.
  remember (fence_text mo body) as t eqn:Et.
  assert (exists t', t = nl :: t') as (t' & ->).
  { rewrite Et. unfold fence_text, fence_open. simpl. eauto. }
  cbn [scan]. rewrite E. cbn [m_text length hits].
  rewrite scan_skip_all. cbn [scan]. rewrite fence_exec_end. reflexivity.
Qed.

(** ** Blocks *)

Lemma str_eqb_eq (a b : str) : str_eqb a b = true <-> a = b.
Proof.
  revert b. induction a as [|x a IH]; intros [|y b]; simpl.
  - split; reflexivity.
  - split; discriminate.
  - split; discriminate.
  - rewrite andb_true_iff, Ascii.eqb_eq, IH.
    split; [intros [-> ->]; reflexivity | intros H; inversion H; auto].
Qed.

Lemma str_eqb_refl (a : str) : str_eqb a a = true.
Proof. apply str_eqb_eq. reflexivity. Qed.

Lemma str_eqb_neq (a b : str) : str_eqb a b = false <-> a <> b.
Proof.
  destruct (str_eqb a b) eqn:E.
  - apply str_eqb_eq in E. split; [discriminate | congruence].
  - split; [|reflexivity]. intros _ H. apply str_eqb_eq in H. congruence.
Qed.

Section BlockFacts.
Variable format : str -> FormatOptions -> option str.
Variable transpileModule : str -> nat -> option str.
Variable twoslasher : str -> str -> option str.

Local Abbreviation decide := (decide format transpileModule twoslasher).
Local Abbreviation rewrite_block := (rewrite_block format transpileModule twoslasher).
Local Abbreviation block_callback := (block_callback format transpileModule twoslasher).
Local Abbreviation rewrite_blocks := (rewrite_blocks format transpileModule twoslasher).
Local Abbreviation prepare := (prepare twoslasher).
Local Abbreviation formatTS := (formatTS format).
Local Abbreviation formatJS := (formatJS format transpileModule).

Lemma rewrite_block_decide (whole meta snippet : str) :
  rewrite_block whole meta snippet
  = option_map (render whole meta) (decide meta snippet).
Proof.
  unfold rewrite_block, decide.
  destruct (prepare meta snippet) as [s|]; [|reflexivity]. simpl.
  destruct (formatTS s) as [ts|]; [|reflexivity]. simpl.
  destruct (formatJS ts) as [js|]; [|reflexivity]. simpl.
  destruct (str_eqb js ts); reflexivity.
Qed.

Lemma decide_inv (meta snippet : str) (d : Decision) :
  decide meta snippet = Some d ->
  exists s ts js,
    prepare meta snippet = Some s /\ formatTS s = Some ts
    /\ formatJS ts = Some js
    /\ d = (if str_eqb js ts then Unchanged else Diverged s js).
Proof.
  unfold decide. intros H.
  destruct (prepare meta snippet) as [s|] eqn:E1; [|discriminate].
  simpl in H.
  destruct (formatTS s) as [ts|] eqn:E2; [|discriminate]. simpl in H.
  destruct (formatJS ts) as [js|] eqn:E3; [|discriminate]. simpl in H.
  inversion H. exists s, ts, js. auto.
Qed.

Lemma rewrite_blocks_spec (code : str) :
  rewrite_blocks code
  = (rs <- promise_all (map block_callback (fences code)) ;;
     Some (interleave (outside_fences code) rs)).
Proof. apply replaceAsync_spec. Qed.

Lemma block_callback_decide (m : rmatch) :
  block_callback m
  = option_map (render (m_text m) (block_meta m))
               (decide (block_meta m) (block_body m)).
Proof. apply rewrite_block_decide. Qed.

Lemma failed_step_rejects (whole meta snippet s : str) :
  prepare meta snippet = Some s ->
  formatTS s = None
  \/ (exists ts, formatTS s = Some ts /\ formatJS ts = None) ->
  rewrite_block whole meta snippet = None.
Proof.
  intros Hp H. unfold rewrite_block. rewrite Hp. simpl.
  destruct H as [H | (ts & H1 & H2)].
  - rewrite H. reflexivity.
  - rewrite H1. simpl. rewrite H2. reflexivity.
Qed.


(** C3, as the code has it: the decision is Unchanged exactly when the
    canonical JavaScript equals the canonical TypeScript, where the canonical
    TypeScript is the formatter's output on the body the callback works on
    (the stripped body for a twoslash block, the body itself otherwise); in
    the Unchanged case the matched fence is returned as it is. *)
Theorem unchanged_iff_same_rendering
        (whole meta snippet s formattedTS formattedJS : str) :
  prepare meta snippet = Some s ->
  formatTS s = Some formattedTS ->
  formatJS formattedTS = Some formattedJS ->
  (decide meta snippet = Some Unchanged <-> formattedJS = formattedTS)
  /\ (formattedJS = formattedTS ->
      rewrite_block whole meta snippet = Some whole)
  /\ (formattedJS <> formattedTS ->
      decide meta snippet = Some (Diverged s formattedJS)).
Proof.
  intros Hp Hts Hjs.
  assert (Hd : decide meta snippet
               = Some (if str_eqb formattedJS formattedTS then Unchanged
                       else Diverged s formattedJS)).
  { unfold decide. rewrite Hp. simpl. rewrite Hts. simpl.
    rewrite Hjs. reflexivity. }
  split; [|split].
  - rewrite Hd. destruct (str_eqb formattedJS formattedTS) eqn:E.
    + apply str_eqb_eq in E. tauto.
    + apply str_eqb_neq in E. split; [discriminate | tauto].
  - intros E. rewrite rewrite_block_decide, Hd.
    apply str_eqb_eq in E. rewrite E. reflexivity.
  - intros E. rewrite Hd. apply str_eqb_neq in E. rewrite E. reflexivity.
Qed.

(** C4: a document with [N] matched TypeScript blocks is the text
    [g0 m1 g1 ... mN gN]; the block rewriter answers [g0 r1 g1 ... rN gN],
    where [ri] is the resolved replacement of the [i]-th match, every
    replacement being computed from the matches of the original text. *)
Theorem blocks_replaced_in_order (code : str) :
  length (outside_fences code) = S (length (fences code))
  /\ code = interleave (outside_fences code) (map m_text (fences code))
  /\ forall out,
       rewrite_blocks code = Some out
       <-> exists rs,
           Forall2 (fun m r => block_callback m = Some r) (fences code) rs
           /\ out = interleave (outside_fences code) rs.
Proof.
  split; [apply gaps_length|]. split.
  - unfold outside_fences, fences. rewrite interleave_src, scan_src.
    reflexivity.
  - intros out. rewrite rewrite_blocks_spec. split.
    + intros H.
      destruct (promise_all (map block_callback (fences code))) as [rs|] eqn:P;
        [|discriminate].
      simpl in H. inversion H. exists rs. split; [|reflexivity].
      apply promise_all_Forall2. exact P.
    + intros (rs & HF & ->).
      apply promise_all_Forall2 in HF. rewrite HF. reflexivity.
Qed.

Lemma toggle_panes (meta ts js : str) :
  toggle meta ts js
  = nl :: lit "<CodeToggle>" ++ nl
       :: pane (lit "ts") (lit "ts " ++ meta) ts
       ++ pane (lit "js") (lit "js") js
       ++ lit "</CodeToggle>" ++ [nl].
Proof.
  unfold toggle, pane, lines. cbn [join].
  repeat first [rewrite <- app_assoc | progress cbn [app]].
  reflexivity.
Qed.

(** C5, as the code has it: the replacement of a Diverged block is the
    toggle container around two panes, each a marker element around a fenced
    block: the TS pane under the fence [ts] followed by the original
    annotation, the JS pane under the fence [js] with the canonical
    JavaScript as body.  The body of the TS pane is the body the callback
    worked on: the original body when the annotation is not the twoslash
    flag, the stripper's output when it is. *)
Theorem diverged_is_toggle_of_two_panes (whole meta snippet ts js : str) :
  decide meta snippet = Some (Diverged ts js) ->
  rewrite_block whole meta snippet
  = Some (nl :: lit "<CodeToggle>" ++ nl
             :: pane (lit "ts") (lit "ts " ++ meta) ts
             ++ pane (lit "js") (lit "js") js
             ++ lit "</CodeToggle>" ++ [nl])
  /\ prepare meta snippet = Some ts
  /\ (is_twoslash meta = false -> ts = snippet)
  /\ (is_twoslash meta = true -> twoslasher snippet (lit "ts") = Some ts)
  /\ exists formattedTS,
       formatTS ts = Some formattedTS /\ formatJS formattedTS = Some js.
Proof.
  intros Hd.
  pose proof (rewrite_block_decide whole meta snippet) as Hr.
  rewrite Hd in Hr. simpl in Hr. rewrite toggle_panes in Hr.
  apply decide_inv in Hd.
  destruct Hd as (s & fts & js' & Hp & Hts & Hjs & Hd).
  destruct (str_eqb js' fts); [discriminate|].
  inversion Hd; subst s js'.
  split; [exact Hr|]. split; [exact Hp|].
  unfold prepare in Hp.
  split; [|split].
  - intros E. rewrite E in Hp. inversion Hp. reflexivity.
  - intros E. rewrite E in Hp. exact Hp.
  - eauto.
Qed.

End BlockFacts.

(** ** A second walk over the output *)

Lemma fence_block_shape (code : str) (m : rmatch) :
  In m (fences code) ->
  exists mo body,
    meta_ok mo /\ body_ok body
    /\ m_text m = fence_text mo body
    /\ block_meta m = default mo
    /\ block_body m = body.
Proof.
  intros H. apply hits_scan_exec in H. destruct H as (b & a & H).
  apply fence_exec_inv in H.
  destruct H as (mo & body & rest & Hm & Hb & _ & ->).
  exists mo, body.
  split; [exact Hm|]. split; [exact Hb|]. split; [reflexivity|].
  split; [|reflexivity].
  destruct mo; reflexivity.
Qed.

Lemma ts_pane_fence_text (meta body : str) :
  ts_pane meta body = fence_text (Some (" "%char :: meta)) body.
Proof.
  unfold ts_pane, fence_text, lines, fence_open, fence_close.
  cbn [join default].
  repeat first [rewrite <- app_assoc | progress cbn [app lit list_ascii_of_string]].
  reflexivity.
Qed.

Lemma is_twoslash_space (meta : str) :
  is_twoslash (" "%char :: meta) = is_twoslash meta.
Proof. reflexivity. Qed.

Lemma toggle_holds_ts_pane (meta ts js : str) :
  exists pre post, toggle meta ts js = pre ++ ts_pane meta ts ++ post.
Proof.
  exists (lines [ []; lit "<CodeToggle>";
                  lit "<div class=" ++ [dq] ++ lit "code-block-ts" ++ [dq]
                      ++ lit ">" ] ++ [nl]).
  eexists.
  unfold toggle, ts_pane, lines. cbn [join].
  repeat first [rewrite <- app_assoc | progress cbn [app]].
  reflexivity.
Qed.

Section Rescan.
Variable format : str -> FormatOptions -> option str.
Variable transpileModule : str -> nat -> option str.
Variable twoslasher : str -> str -> option str.

Local Abbreviation decide := (decide format transpileModule twoslasher).
Local Abbreviation decisions := (decisions format transpileModule twoslasher).
Local Abbreviation block_callback :=
  (block_callback format transpileModule twoslasher).

Lemma decide_space (meta body : str) :
  decide (" "%char :: meta) body = decide meta body.
Proof. reflexivity. Qed.

Lemma decisions_of_fence_text (mo : option str) (body : str) :
  meta_ok mo -> body_ok body ->
  decisions (fence_text mo body) = [decide (default mo) body].
Proof.
  intros Hm Hb. unfold decisions.
  rewrite (fences_of_fence_text mo body Hm Hb).
  destruct mo; reflexivity.
Qed.

(** C6, as the code has it: a block that the first walk leaves Unchanged
    is decided Unchanged again by a second walk over the text the first one
    emitted.  A Diverged block is emitted as the toggle, which holds the TS
    pane.  When the fence had no annotation, the pane opens with [```ts] and
    a space, and the pattern does not match at that line, whatever follows
    it.  When it had an annotation other than the twoslash flag, a second
    walk over the pane matches it whole and decides Diverged again with the
    same panes.  Under the twoslash flag the displayed body is the stripped
    one: a second walk that matches it whole decides on it stripped once
    more, which is the first decision whenever the stripper returns the
    displayed body as it is. *)
Theorem rescan_keeps_decision (code : str) (m : rmatch) (d : Decision) :
  In m (fences code) ->
  decide (block_meta m) (block_body m) = Some d ->
  (d = Unchanged ->
   block_callback m = Some (m_text m)
   /\ decisions (m_text m) = [Some Unchanged])
  /\ (forall ts js,
        d = Diverged ts js ->
        block_callback m = Some (toggle (block_meta m) ts js)
        /\ (exists pre post,
               toggle (block_meta m) ts js
               = pre ++ ts_pane (block_meta m) ts ++ post)
        /\ (block_meta m = [] ->
            forall b rest,
              exec_at re_fence b (ts_pane (block_meta m) ts ++ rest) = None)
        /\ (block_meta m <> [] ->
            is_twoslash (block_meta m) = false ->
            decisions (ts_pane (block_meta m) ts) = [Some (Diverged ts js)])
        /\ (is_twoslash (block_meta m) = true ->
            body_ok ts ->
            decisions (ts_pane (block_meta m) ts)
            = [bind (twoslasher ts (lit "ts")) (decide [])]
            /\ (twoslasher ts (lit "ts") = Some ts ->
                decisions (ts_pane (block_meta m) ts)
                = [Some (Diverged ts js)]))).
Proof.
  intros Hin Hd.
  destruct (fence_block_shape code m Hin)
    as (mo & body & Hm & Hb & Ht & Hme & Hbo).
  pose proof (block_callback_decide format transpileModule twoslasher m)
    as Hcb.
  rewrite Hd in Hcb. simpl in Hcb.
  split.
  - intros ->. split; [exact Hcb|].
    rewrite Ht, (decisions_of_fence_text mo body Hm Hb).
    rewrite <- Hme, <- Hbo, Hd. reflexivity.
  - intros ts js ->. split; [exact Hcb|].
    split; [apply toggle_holds_ts_pane|].
    split; [intros -> b rest; reflexivity|].
    assert (Again : block_meta m <> [] -> body_ok ts ->
                    decisions (ts_pane (block_meta m) ts)
                    = [decide (block_meta m) ts]).
    { intros Hne Hb'.
      assert (Hm' : meta_ok (Some (" "%char :: block_meta m))).
      { rewrite Hme in *.
        destruct mo as [meta|]; [|exfalso; apply Hne; reflexivity].
        destruct Hm as (m1 & -> & Hm1 & Hall). simpl.
        exists (" "%char :: m1).
        split; [reflexivity|]. split; [discriminate|].
        simpl. exact Hall. }
      rewrite ts_pane_fence_text.
      rewrite (decisions_of_fence_text _ ts Hm' Hb').
      cbn [default]. rewrite decide_space. reflexivity. }
    pose proof Hd as Hd0.
    apply decide_inv in Hd.
    destruct Hd as (s & fts & js' & Hp & Hts & Hjs & Hd).
    destruct (str_eqb js' fts) eqn:E; [discriminate|].
    inversion Hd; subst s js'.
    split.
    + intros Hne Hf. unfold prepare in Hp. rewrite Hf in Hp.
      inversion Hp. subst ts.
      rewrite (Again Hne); [|rewrite Hbo; exact Hb].
      rewrite Hd0. reflexivity.
    + intros Hf Hb'.
      assert (Hne : block_meta m <> []).
      { intros N. rewrite N in Hf. discriminate Hf. }
      assert (Strip : decide (block_meta m) ts
                      = bind (twoslasher ts (lit "ts")) (decide [])).
      { unfold decide, prepare. rewrite Hf.
        destruct (twoslasher ts (lit "ts")); reflexivity. }
      rewrite (Again Hne Hb'), Strip.
      split; [reflexivity|].
      intros Hs. rewrite Hs. cbn [bind].
      unfold decide, prepare. cbn [is_twoslash bind].
      change (is_twoslash []) with false. cbn [bind].
      rewrite Hts. cbn [bind]. rewrite Hjs. cbn [bind]. rewrite E.
      reflexivity.
Qed.
End Rescan.

(** ** Collapsing newlines *)

Lemma fold_pieces_stateless (g : rmatch -> option str) (ps : list piece) :
  fold_pieces (fun m (_ : unit) => x <- g m ;; Some (x, tt)) ps tt
  = (rs <- promise_all (map g (hits ps)) ;;
     Some (interleave (gaps ps) rs, tt)).
Proof.
  induction ps as [|[c|m] ps IH].
  - reflexivity.
  - cbn [fold_pieces hits]. rewrite IH.
    destruct (promise_all (map g (hits ps))) as [rs|]; [|reflexivity].
    cbn [bind]. rewrite interleave_keep. reflexivity.
  - cbn [fold_pieces hits map promise_all].
    destruct (g m) as [x|]; [|reflexivity]. cbn [bind].
    rewrite IH.
    destruct (promise_all (map g (hits ps))) as [rs|]; reflexivity.
Qed.

Lemma promise_all_Some {A B : Type} (f : A -> B) (l : list A) :
  promise_all (map (fun a => Some (f a)) l) = Some (map f l).
Proof.
  induction l as [|a l IH]; [reflexivity|].
  simpl. rewrite IH. reflexivity.
Qed.

Lemma replace_all_pure_spec (r : re) (f : rmatch -> str) (s : str) :
  replace_all_pure r f s
  = interleave (gaps (scan r [] s 0)) (map f (hits (scan r [] s 0))).
Proof.
  unfold replace_all_pure, replace_all.
  change (fun m (_ : unit) => Some (f m, tt))
    with (fun m (_ : unit) => x <- (fun a => Some (f a)) m ;; Some (x, tt)).
  rewrite fold_pieces_stateless. rewrite promise_all_Some. reflexivity.
Qed.

Lemma plus_greedy_total (F : str -> rmatch) :
  forall a b,
    plus_greedy (is_char nl) b a (fun _ a' => Some (F a'))
    = match nl_run a with
      | 0 => None
      | S j => Some (F (skipn (S j) a))
      end.
Proof.
  induction a as [|c a IH]; intros b; [reflexivity|].
  cbn [plus_greedy nl_run]. destruct (is_char nl c); [|reflexivity].
  rewrite IH. destruct (nl_run a); reflexivity.
Qed.

Lemma nl_run_le (a : str) : nl_run a <= length a.
Proof.
  induction a as [|c a IH]; simpl; [lia|].
  destruct (is_char nl c); lia.
Qed.

Lemma exec_newlines (b a : str) :
  exec_at re_newlines b a
  = match nl_run a with
    | 0 => None
    | S j => Some (MkMatch (length b) (firstn (S j) a) [])
    end.
Proof.
  unfold exec_at, re_newlines. cbn [run].
  rewrite (plus_greedy_total
             (fun a' => MkMatch (length b) (firstn (length a - length a') a) [])).
  pose proof (nl_run_le a) as L.
  destruct (nl_run a) as [|j]; [reflexivity|].
  rewrite length_skipn.
  replace (length a - (length a - S j)) with (S j) by lia. reflexivity.
Qed.

Lemma squeeze_run (a : str) :
  squeeze (nl :: a) = nl :: squeeze (skipn (nl_run a) a).
Proof.
  induction a as [|d a IH]; [reflexivity|].
  cbn [nl_run]. destruct (is_char nl d) eqn:E.
  - apply is_char_eq in E. subst d.
    change (squeeze (nl :: nl :: a)) with (squeeze (nl :: a)).
    rewrite IH. reflexivity.
  - cbn [squeeze skipn]. rewrite is_char_refl, E. reflexivity.
Qed.

Lemma collapse_scan :
  forall a b n,
    n = 0 \/ n = nl_run a ->
    interleave (gaps (scan re_newlines b a n))
               (map (fun _ => [nl]) (hits (scan re_newlines b a n)))
    = squeeze (skipn n a).
Proof.
  induction a as [|c a IH]; intros b n Hn.
  - assert (n = 0) as -> by (destruct Hn; assumption). reflexivity.
  - destruct n as [|n].
    + cbn [scan skipn]. rewrite exec_newlines. cbn [nl_run].
      destruct (is_char nl c) eqn:E.
      * apply is_char_eq in E. subst c.
        cbn [m_text]. rewrite length_firstn.
        pose proof (nl_run_le a) as L.
        replace (Nat.min (S (nl_run a)) (length (nl :: a)))
          with (S (nl_run a)) by (simpl; lia).
        cbn [hits map gaps interleave app].
        rewrite IH by (right; reflexivity).
        symmetry. apply squeeze_run.
      * rewrite interleave_keep. cbn [hits].
        rewrite IH by (left; reflexivity).
        cbn [squeeze]. rewrite E. reflexivity.
    + cbn [scan skipn]. apply IH.
      destruct Hn as [Hn|Hn]; [discriminate|].
      cbn [nl_run] in Hn. destruct (is_char nl c); [|discriminate].
      right. congruence.
Qed.

Lemma collapse_newlines_squeeze (s : str) : collapse_newlines s = squeeze s.
Proof.
  unfold collapse_newlines. rewrite replace_all_pure_spec.
  apply (collapse_scan s [] 0). left. reflexivity.
Qed.

Lemma squeeze_cons (c : ascii) (s : str) :
  squeeze (c :: s)
  = if is_char nl c then
      match s with
      | d :: _ => if is_char nl d then squeeze s else c :: squeeze s
      | [] => [c]
      end
    else c :: squeeze s.
Proof. reflexivity. Qed.

Lemma squeeze_head (s : str) :
  forall c, exists t, squeeze (c :: s) = c :: t.
Proof.
  induction s as [|d s IH]; intros c; rewrite squeeze_cons.
  - destruct (is_char nl c); eauto.
  - destruct (is_char nl c) eqn:Ec; [|eauto].
    destruct (is_char nl d) eqn:Ed; [|eauto].
    apply is_char_eq in Ec, Ed. subst c d. apply IH.
Qed.

Lemma has_blank_line_cons (c d : ascii) (t : str) :
  has_blank_line (c :: d :: t)
  = (is_char nl c && is_char nl d) || has_blank_line (d :: t).
Proof. reflexivity. Qed.

Lemma squeeze_no_blank_line (s : str) : has_blank_line (squeeze s) = false.
Proof.
  induction s as [|c s IH]; [reflexivity|].
  rewrite squeeze_cons.
  destruct s as [|d t].
  - destruct (is_char nl c); reflexivity.
  - destruct (squeeze_head t d) as (u & Hu).
    destruct (is_char nl c) eqn:Ec.
    + destruct (is_char nl d) eqn:Ed; [exact IH|].
      rewrite Hu in *. rewrite has_blank_line_cons, IH, Ed.
      rewrite andb_false_r. reflexivity.
    + rewrite Hu in *. rewrite has_blank_line_cons, IH, Ec. reflexivity.
Qed.

(** ** Trimming, and the twoslash flag *)

Lemma trimStart_split (s : str) :
  exists ws, s = ws ++ trimStart s /\ forallb is_space ws = true.
Proof.
  induction s as [|c s (ws & IH & Hws)]; simpl.
  - exists []. auto.
  - destruct (is_space c) eqn:E.
    + exists (c :: ws). simpl. rewrite E, Hws. split; [congruence | reflexivity].
    + exists []. auto.
Qed.

Lemma trimStart_clean (s : str) : starts_clean (trimStart s).
Proof.
  induction s as [|c s IH]; simpl; [exact I|].
  destruct (is_space c) eqn:E; [exact IH | exact E].
Qed.

Lemma trimStart_id (s : str) : starts_clean s -> trimStart s = s.
Proof.
  destruct s as [|c s]; simpl; [reflexivity|]. intros ->. reflexivity.
Qed.

Lemma trimStart_spaces (ws s : str) :
  forallb is_space ws = true -> trimStart (ws ++ s) = trimStart s.
Proof.
  induction ws as [|c ws IH]; simpl; [reflexivity|].
  intros H. apply andb_prop in H. destruct H as [-> H]. apply IH. exact H.
Qed.

Lemma forallb_rev {A : Type} (p : A -> bool) (l : list A) :
  forallb p (rev l) = forallb p l.
Proof.
  induction l as [|x l IH]; [reflexivity|].
  simpl. rewrite forallb_app, IH. simpl. rewrite andb_true_r.
  apply andb_comm.
Qed.

Lemma trimEnd_split (s : str) :
  exists ws, s = trimEnd s ++ ws /\ forallb is_space ws = true.
Proof.
  unfold trimEnd. destruct (trimStart_split (rev s)) as (ws & E & Hws).
  exists (rev ws). split.
  - rewrite <- rev_app_distr, <- E. symmetry. apply rev_involutive.
  - rewrite forallb_rev. exact Hws.
Qed.

Lemma trim_split (s : str) :
  exists pre post,
    s = pre ++ trim s ++ post
    /\ forallb is_space pre = true /\ forallb is_space post = true.
Proof.
  destruct (trimStart_split s) as (pre & E1 & H1).
  destruct (trimEnd_split (trimStart s)) as (post & E2 & H2).
  exists pre, post. unfold trim. rewrite <- E2. auto.
Qed.

Lemma trim_trimmed (s : str) : trimmed (trim s).
Proof.
  unfold trimmed, trim. split.
  - destruct (trimEnd_split (trimStart s)) as (ws & E & _).
    pose proof (trimStart_clean s) as C.
    destruct (trimEnd (trimStart s)) as [|c t]; [exact I|].
    rewrite E in C. exact C.
  - unfold trimEnd. rewrite rev_involutive. apply trimStart_clean.
Qed.

Lemma trim_sandwich (pre t post : str) :
  forallb is_space pre = true -> forallb is_space post = true ->
  t <> [] -> trimmed t ->
  trim (pre ++ t ++ post) = t.
Proof.
  intros Hpre Hpost Hne [Hh Hl]. unfold trim.
  rewrite (trimStart_spaces pre _ Hpre).
  rewrite (trimStart_id (t ++ post)).
  - unfold trimEnd. rewrite rev_app_distr.
    rewrite trimStart_spaces by (rewrite forallb_rev; exact Hpost).
    rewrite (trimStart_id (rev t) Hl). apply rev_involutive.
  - destruct t; [congruence | exact Hh].
Qed.

Lemma space_lower (c : ascii) :
  is_space c = true -> is_space (lower_char c) = true.
Proof.
  destruct c as [[] [] [] [] [] [] [] []]; vm_compute; intros H;
    first [exact H | reflexivity].
Qed.

Lemma twoslash_word_trimmed (t : str) :
  toLowerCase t = lit "twoslash" -> t <> [] /\ trimmed t.
Proof.
  intros H.
  assert (Hs : forall c x, lower_char c = x -> is_space x = false ->
                           is_space c = false).
  { intros c x E Hx. destruct (is_space c) eqn:S; [|reflexivity].
    apply space_lower in S. rewrite E in S. congruence. }
  do 9 (destruct t as [|? t]; try discriminate).
  unfold toLowerCase in H. cbn [map lit list_ascii_of_string] in H.
  inversion H. split; [discriminate|]. split; cbn [rev app].
  - eapply Hs; [eassumption | reflexivity].
  - eapply Hs; [eassumption | reflexivity].
Qed.

Lemma is_twoslash_flag_only (meta : str) :
  is_twoslash meta = true <-> flag_only meta.
Proof.
  unfold is_twoslash, flag_only. rewrite str_eqb_eq. split.
  - intros H. destruct (trim_split meta) as (pre & post & E & H1 & H2).
    exists pre, (trim meta), post. auto.
  - intros (pre & t & post & -> & H1 & H2 & H).
    destruct (twoslash_word_trimmed t H) as [Hne Ht].
    rewrite (trim_sandwich pre t post H1 H2 Hne Ht). exact H.
Qed.

Section Canonical.
Variable format : str -> FormatOptions -> option str.
Variable transpileModule : str -> nat -> option str.
Variable twoslasher : str -> str -> option str.

Local Abbreviation decide := (decide format transpileModule twoslasher).
Local Abbreviation rewrite_block :=
  (rewrite_block format transpileModule twoslasher).
Local Abbreviation prepare := (prepare twoslasher).

(** C7, as the code has it: both renderings come from the same formatter
    call, with the options of the fixed style (no statement terminators,
    single quotes), and both are trimmed at either end.  Runs of newlines
    are collapsed to one newline on the TypeScript side only: the formatter
    reads the body with no two newlines in a row, and reads the transpiler's
    output as the transpiler wrote it. *)
Theorem renderings_share_formatter (whole meta snippet out : str) :
  rewrite_block whole meta snippet = Some out <->
  exists s tsOut js jsOut,
    prepare meta snippet = Some s
    /\ format (squeeze s) fmt_opts = Some tsOut
    /\ transpileModule (trim tsOut) 99 = Some js
    /\ format js fmt_opts = Some jsOut
    /\ has_blank_line (squeeze s) = false
    /\ semi fmt_opts = false /\ singleQuote fmt_opts = true
    /\ trimmed (trim tsOut) /\ trimmed (trim jsOut)
    /\ out = render whole meta
                    (if str_eqb (trim jsOut) (trim tsOut) then Unchanged
                     else Diverged s (trim jsOut)).
Proof.
  rewrite rewrite_block_decide.
  unfold decide, formatTS, formatJS.
  split.
  - intros H.
    destruct (prepare meta snippet) as [s|] eqn:E0; [|discriminate].
    cbn [bind] in H. rewrite collapse_newlines_squeeze in H.
    destruct (format (squeeze s) fmt_opts) as [tsOut|] eqn:E1; [|discriminate].
    cbn [bind] in H.
    destruct (transpileModule (trim tsOut) 99) as [js|] eqn:E2;
      [|discriminate].
    cbn [bind] in H.
    destruct (format js fmt_opts) as [jsOut|] eqn:E3; [|discriminate].
    cbn [bind option_map] in H. inversion H.
    exists s, tsOut, js, jsOut.
    repeat match goal with |- _ /\ _ => split end;
      try reflexivity;
      auto using squeeze_no_blank_line, trim_trimmed.
  - intros (s & tsOut & js & jsOut & -> & H1 & H2 & H3 & _ & _ & _ & _ & _ & ->).
    cbn [bind]. rewrite collapse_newlines_squeeze, H1. cbn [bind].
    rewrite H2. cbn [bind]. rewrite H3. reflexivity.
Qed.

(** C9, as the code has it: the stripping step is applied exactly to the
    fences whose annotation is the twoslash flag and nothing else (the word
    [twoslash] in any case, with white space around it); a fence whose
    annotation holds the flag among other tokens is handled as a fence
    without annotation, its body formatted and transpiled as it is. *)
Theorem strip_iff_flag_only (meta snippet : str) :
  (flag_only meta ->
   prepare meta snippet = twoslasher snippet (lit "ts")
   /\ decide meta snippet = bind (twoslasher snippet (lit "ts")) (decide []))
  /\ (~ flag_only meta ->
      prepare meta snippet = Some snippet
      /\ decide meta snippet = decide [] snippet).
Proof.
  split; intros H.
  - apply is_twoslash_flag_only in H.
    unfold decide, prepare. rewrite H.
    split; [reflexivity|].
    destruct (twoslasher snippet (lit "ts")); reflexivity.
  - assert (E : is_twoslash meta = false).
    { destruct (is_twoslash meta) eqn:E; [|reflexivity].
      apply is_twoslash_flag_only in E. contradiction. }
    unfold decide, prepare. rewrite E.
    split; reflexivity.
Qed.
End Canonical.

(** ** Pages *)

Lemma scan_interleave (r : re) (s : str) :
  s = interleave (gaps (scan r [] s 0)) (map m_text (hits (scan r [] s 0))).
Proof. rewrite interleave_src, scan_src. reflexivity. Qed.

Lemma split_on_nonempty (sep : ascii) (s : str) : split_on sep s <> [].
Proof.
  induction s as [|c s IH]; simpl; [discriminate|].
  destruct (Ascii.eqb c sep); [discriminate|].
  destruct (split_on sep s); discriminate.
Qed.

Lemma last_three {A : Type} (l : list A) :
  3 <= length l ->
  exists pre p d i, l = pre ++ [p; d; i] /\ slice_last 3 l = [p; d; i].
Proof.
  intros L. unfold slice_last.
  pose proof (firstn_skipn (length l - 3) l) as E.
  assert (L3 : length (skipn (length l - 3) l) = 3)
    by (rewrite length_skipn; lia).
  destruct (skipn (length l - 3) l) as [|p [|d [|i [|? ?]]]];
    try discriminate.
  exists (firstn (length l - 3) l), p, d, i. auto.
Qed.

Lemma toLowerCase_nil (s : str) : toLowerCase s = [] -> s = [].
Proof. destruct s; [reflexivity | discriminate]. Qed.

Section Pages.
Variable format : str -> FormatOptions -> option str.
Variable transpileModule : str -> nat -> option str.
Variable twoslasher : str -> str -> option str.
Variable functionNames : list str.
Variable getFunction : str -> option VueUseFunction.
Variable packages : list PackageManifest.
Variable getTypeDefinition : str -> str -> option (option str).
Variable replacer : str -> str -> str -> str -> str.
Variable existsSync : str -> bool.
Variable path_join : list str -> str.
Variable DIR_TYPES : str.
Variable DIR_SRC : str.

Local Abbreviation transform :=
  (transform format transpileModule twoslasher functionNames getFunction
             packages getTypeDefinition replacer existsSync path_join
             DIR_TYPES DIR_SRC).
Local Abbreviation rewrite_links := (rewrite_links functionNames getFunction).
Local Abbreviation linkify := (linkify functionNames getFunction).
Local Abbreviation rewrite_blocks :=
  (rewrite_blocks format transpileModule twoslasher).
Local Abbreviation resolve_name := (resolve_name functionNames).
Local Abbreviation ends_in_function_dir := (ends_in_function_dir functionNames).

Lemma resolve_includes (d : str) :
  exists name,
    resolve_name (Some d) = Some (Some name)
    /\ includes functionNames (Some name)
       = existsb (fun n => str_eqb (toLowerCase n) (toLowerCase d))
                 functionNames.
Proof.
  unfold resolve_name.
  destruct (find (fun x => str_eqb (toLowerCase x) (toLowerCase d))
                 functionNames) as [x|] eqn:F.
  - apply find_some in F. destruct F as [Hin Hx].
    assert (R : existsb (fun n => str_eqb (toLowerCase n) (toLowerCase d))
                        functionNames = true).
    { apply existsb_exists. eauto. }
    rewrite R. destruct x as [|c x].
    + exists d. split; [reflexivity|].
      apply str_eqb_eq in Hx. symmetry in Hx. apply toLowerCase_nil in Hx.
      subst d. cbn [includes]. apply existsb_exists. exists [].
      split; [exact Hin | reflexivity].
    + exists (c :: x). split; [reflexivity|].
      cbn [includes]. apply existsb_exists. exists (c :: x).
      split; [exact Hin | apply str_eqb_refl].
  - exists d. split; [reflexivity|].
    assert (R : existsb (fun n => str_eqb (toLowerCase n) (toLowerCase d))
                        functionNames = false).
    { apply not_true_is_false. intros E. apply existsb_exists in E.
      destruct E as (x & Hin & Hx).
      pose proof (find_none _ _ F x Hin) as N. simpl in N. congruence. }
    rewrite R. cbn [includes]. apply not_true_is_false. intros E.
    apply existsb_exists in E. destruct E as (x & Hin & Hx).
    apply str_eqb_eq in Hx. subst x.
    pose proof (find_none _ _ F d Hin) as N. simpl in N.
    rewrite str_eqb_refl in N. discriminate.
Qed.

Local Abbreviation function_page :=
  (function_page format transpileModule twoslasher packages getTypeDefinition
                 replacer existsSync path_join DIR_TYPES DIR_SRC).
Local Abbreviation prepare := (prepare twoslasher).
Local Abbreviation formatTS := (formatTS format).
Local Abbreviation formatJS := (formatJS format transpileModule).
Local Abbreviation block_callback :=
  (block_callback format transpileModule twoslasher).

(** C1, as the code has it: the callback has no handler.  When the
    formatting step or the transpile step of one matched block fails, the
    promise of that block is rejected, [Promise.all] is rejected with it, and
    the block rewriter yields no document at all: neither the failing fence
    nor any sibling block is emitted, and the function page that awaits the
    rewriter fails as a whole. *)
Theorem failed_block_rejects_document (code : str) (m : rmatch) (s : str) :
  In m (fences code) ->
  prepare (block_meta m) (block_body m) = Some s ->
  formatTS s = None
  \/ (exists ts, formatTS s = Some ts /\ formatJS ts = None) ->
  rewrite_blocks code = None
  /\ forall pkg name, function_page code pkg name = None.
Proof.
  intros Hin Hp Hfail.
  assert (Hcb : block_callback m = None).
  { unfold block_callback. eapply failed_step_rejects; eauto. }
  assert (Hrw : rewrite_blocks code = None).
  { rewrite rewrite_blocks_spec.
    rewrite (promise_all_None _ _ m Hin Hcb). reflexivity. }
  split; [exact Hrw|].
  intros pkg name. unfold function_page.
  cbv zeta. rewrite Hrw. reflexivity.
Qed.

(** C10: a markdown document whose path does not end in the directory of a
    registered function followed by [index.md] gets the link rewriting and
    nothing else: whatever document the hook answers is the link-rewritten
    text, and on a path with a directory part (every path the bundler hands
    over is absolute) the hook answers exactly what the link rewriting
    gives.  No fence is rewritten and no section is added. *)
Theorem other_pages_only_link_rewriting (code id : str) :
  test re_md id = true ->
  ends_in_function_dir id = false ->
  (forall out, transform code id = Some (Some out) ->
               rewrite_links code = Some out)
  /\ (2 <= length (split_on "/" id) ->
      transform code id = option_map Some (rewrite_links code)).
Proof.
  intros Hmd Hdir.
  unfold transform. rewrite Hmd. cbn [negb].
  destruct (rewrite_links code) as [c|]; cbn [bind option_map];
    [|split; [discriminate | reflexivity]].
  cbv zeta.
  pose proof (split_on_nonempty "/" id) as Hne.
  unfold ends_in_function_dir in Hdir.
  destruct (Nat.le_gt_cases 3 (length (split_on "/" id))) as [L|L].
  - destruct (last_three _ L) as (pre & p & d & i & E & S3).
    rewrite S3. rewrite E in Hdir. rewrite rev_app_distr in Hdir.
    cbn [rev app] in Hdir. cbn [nth_error].
    destruct (resolve_includes d) as (name & Hr & Hi).
    rewrite Hr. cbn [bind is_index_md]. rewrite Hi, andb_comm, Hdir.
    split; [intros out H; inversion H; reflexivity | reflexivity].
  - unfold slice_last.
    replace (length (split_on "/" id) - 3) with 0 by lia. cbn [skipn].
    destruct (split_on "/" id) as [|x [|y [|z l]]];
      [congruence | | | simpl in L; lia].
    + cbn [nth_error resolve_name].
      split; [|simpl; lia].
      destruct functionNames; cbn [bind includes andb];
        [intros out H; inversion H; reflexivity | discriminate].
    + cbn [nth_error].
      destruct (resolve_includes y) as (name & Hr & _).
      rewrite Hr. cbn [bind is_index_md]. rewrite andb_false_r.
      split; [intros out H; inversion H; reflexivity | reflexivity].
Qed.

End Pages.

(** ** The patterns on sample texts *)

Example fence_plain :
  map (fun m => (m_index m, m_group m 1, m_group m 2))
      (fences (lit "x" ++ Sample.fence [] Cases.typed ++ lit "y"))
  = [(1, None, Some Cases.typed)].
Proof. reflexivity. Qed.

Example fence_annotated :
  map (fun m => (m_group m 1, m_group m 2))
      (fences (Sample.fence (lit " twoslash {1}") (lit "a" ++ [nl] ++ lit "b")))
  = [(Some (lit " twoslash {1}"), Some (lit "a" ++ [nl] ++ lit "b"))].
Proof. reflexivity. Qed.

(** The body is lazy: it ends at the first closing fence line. *)
Example fence_lazy :
  map block_body
      (fences (Sample.fence [] (lit "a") ++ lit "```" ++ [nl]
                 ++ Sample.fence [] (lit "b")))
  = [lit "a"; lit "b"].
Proof. reflexivity. Qed.

(** An empty body, or a space with nothing after it, is no block. *)
Example fence_needs_body :
  fences (nl :: lit "```ts" ++ nl :: nl :: lit "```" ++ [nl]) = []
  /\ fences (nl :: lit "```ts " ++ nl :: lit "a" ++ nl :: lit "```" ++ [nl])
     = [].
Proof. split; reflexivity. Qed.

Example md_ids :
  test re_md (lit "/docs/guide/index.md") = true
  /\ test re_md (lit "/docs/guide/index.md?raw") = true
  /\ test re_md (lit "/docs/guide/index.mdx") = false
  /\ test re_md (lit "/docs/guide/index.ts") = false.
Proof. repeat split; reflexivity. Qed.

(** The braces of the pattern belong to the first and the last name. *)
Example link_alternatives :
  link_alts Sample.functionNames
  = [lit "{useMouse"; lit "useStorage"; lit "useTitle}"]
  /\ linkify Sample.functionNames Sample.getFunction (lit "`useMouse`.")
     = Some (lit "`useMouse`.")
  /\ linkify Sample.functionNames Sample.getFunction (lit "[`useStorage`]")
     = Some (lit "[`useStorage`]")
  /\ linkify Sample.functionNames Sample.getFunction (lit "`{useMouse`.")
     = None.
Proof. repeat split; reflexivity. Qed.

Example newlines_collapsed :
  collapse_newlines (nl :: nl :: lit "a" ++ nl :: nl :: nl :: lit "b" ++ [nl])
  = nl :: lit "a" ++ nl :: lit "b" ++ [nl].
Proof. reflexivity. Qed.

Example header_search :
  search re_header (nl :: lit "# a" ++ nl :: lit "### b") = 4%Z
  /\ search re_header (lit "## b") = (-1)%Z.
Proof. split; reflexivity. Qed.

Example function_page_sample :
  Sample.transform (lit "# useMouse" ++ Sample.fence [] Cases.untyped)
                   Cases.page_id
  = Some (Some (lines [ lit "# useMouse"; [];
                        lit "<FunctionInfo fn=" ++ [dq] ++ lit "useMouse"
                            ++ [dq] ++ lit "/>";
                        lit "```ts"; Cases.untyped; lit "```"; [] ])).
Proof. reflexivity. Qed.

(** ** The claims on the sample environment *)

Import Cases.

(** C1 fails on the code: the second block of [two_blocks] is rejected by
    the formatter; the block rewriter then yields no document, where the
    claim has the document come out with that fence unchanged and the first
    block rewritten. *)
Lemma fail_open_counterexample :
  map m_text (fences two_blocks)
  = [Sample.fence [] typed; Sample.fence [] broken]
  /\ formatTS Sample.format broken = None
  /\ rewrite_blocks Sample.format Sample.transpileModule Sample.twoslasher
                    two_blocks = None
  /\ Sample.transform two_blocks page_id = None.
Proof. vm_compute. repeat split. Qed.

Lemma failed_block_rejects_document_witness :
  rewrite_blocks Sample.format Sample.transpileModule Sample.twoslasher
                 two_blocks = None
  /\ forall pkg name,
       function_page Sample.format Sample.transpileModule Sample.twoslasher
                     Sample.packages Sample.getTypeDefinition Sample.replacer
                     Sample.existsSync Sample.path_join Sample.DIR_TYPES
                     Sample.DIR_SRC two_blocks pkg name = None.
Proof.
  apply (failed_block_rejects_document
           Sample.format Sample.transpileModule Sample.twoslasher
           Sample.packages Sample.getTypeDefinition Sample.replacer
           Sample.existsSync Sample.path_join Sample.DIR_TYPES Sample.DIR_SRC
           two_blocks broken_block broken).
  - vm_compute. right. left. reflexivity.
  - reflexivity.
  - left. reflexivity.
Defined.



(** C3 fails on the code: a twoslash block whose stripped body has no type
    is decided Unchanged, although the canonical JavaScript differs from the
    formatter's output on the body as written. *)
Lemma canonical_ts_original_counterexample :
  decide Sample.format Sample.transpileModule Sample.twoslasher
         flag untyped_query = Some Unchanged
  /\ formatTS Sample.format untyped_query = Some untyped_query
  /\ formatJS Sample.format Sample.transpileModule untyped = Some untyped
  /\ untyped <> untyped_query.
Proof. vm_compute. repeat split. discriminate. Qed.

Lemma unchanged_iff_same_rendering_witness :
  (decide Sample.format Sample.transpileModule Sample.twoslasher
          flag untyped_query = Some Unchanged <-> untyped = untyped)
  /\ (untyped = untyped ->
      rewrite_block Sample.format Sample.transpileModule Sample.twoslasher
                    (Sample.fence flag untyped_query) flag untyped_query
      = Some (Sample.fence flag untyped_query))
  /\ (untyped <> untyped ->
      decide Sample.format Sample.transpileModule Sample.twoslasher
             flag untyped_query = Some (Diverged untyped untyped)).
Proof.
  apply (unchanged_iff_same_rendering
           Sample.format Sample.transpileModule Sample.twoslasher
           (Sample.fence flag untyped_query) flag untyped_query
           untyped untyped untyped).
  - reflexivity.
  - reflexivity.
  - reflexivity.
Defined.

Lemma blocks_replaced_in_order_witness :
  length (outside_fences two_blocks) = S (length (fences two_blocks))
  /\ two_blocks
     = interleave (outside_fences two_blocks) (map m_text (fences two_blocks))
  /\ forall out,
       rewrite_blocks Sample.format Sample.transpileModule Sample.twoslasher
                      two_blocks = Some out
       <-> exists rs,
           Forall2 (fun m r =>
                      block_callback Sample.format Sample.transpileModule
                                     Sample.twoslasher m = Some r)
                   (fences two_blocks) rs
           /\ out = interleave (outside_fences two_blocks) rs.
Proof.
  apply (blocks_replaced_in_order
           Sample.format Sample.transpileModule Sample.twoslasher two_blocks).
Defined.

(** C5 fails on the code: the TS pane of a Diverged twoslash block does not
    keep the original body. *)
Lemma toggle_original_body_counterexample :
  decide Sample.format Sample.transpileModule Sample.twoslasher
         (lit " TwoSlash") typed_query = Some (Diverged typed untyped)
  /\ rewrite_block Sample.format Sample.transpileModule Sample.twoslasher
                   (Sample.fence (lit " TwoSlash") typed_query)
                   (lit " TwoSlash") typed_query
     = Some (nl :: lit "<CodeToggle>" ++ nl
                :: pane (lit "ts") (lit "ts  TwoSlash") typed
                ++ pane (lit "js") (lit "js") untyped
                ++ lit "</CodeToggle>" ++ [nl])
  /\ pane (lit "ts") (lit "ts  TwoSlash") typed
     <> pane (lit "ts") (lit "ts  TwoSlash") typed_query.
Proof. vm_compute. repeat split. discriminate. Qed.

Lemma diverged_is_toggle_of_two_panes_witness :
  rewrite_block Sample.format Sample.transpileModule Sample.twoslasher
                (Sample.fence [] typed) [] typed
  = Some (nl :: lit "<CodeToggle>" ++ nl
             :: pane (lit "ts") (lit "ts " ++ []) typed
             ++ pane (lit "js") (lit "js") untyped
             ++ lit "</CodeToggle>" ++ [nl])
  /\ prepare Sample.twoslasher [] typed = Some typed
  /\ (is_twoslash [] = false -> typed = typed)
  /\ (is_twoslash [] = true ->
      Sample.twoslasher typed (lit "ts") = Some typed)
  /\ exists formattedTS,
       formatTS Sample.format typed = Some formattedTS
       /\ formatJS Sample.format Sample.transpileModule formattedTS
          = Some untyped.
Proof.
  apply (diverged_is_toggle_of_two_panes
           Sample.format Sample.transpileModule Sample.twoslasher
           (Sample.fence [] typed) [] typed typed untyped).
  reflexivity.
Defined.

(** C6 fails on the code: a block without annotation that the first walk
    decides Diverged is emitted under the fence [```ts ] with a space after
    it, which the pattern does not match; a second walk over the TS pane, or
    over the whole toggle, finds no block and takes no decision. *)
Lemma rescan_plain_block_counterexample :
  map block_body (fences (Sample.fence [] typed)) = [typed]
  /\ decide Sample.format Sample.transpileModule Sample.twoslasher [] typed
     = Some (Diverged typed untyped)
  /\ rewrite_block Sample.format Sample.transpileModule Sample.twoslasher
                   (Sample.fence [] typed) [] typed
     = Some (toggle [] typed untyped)
  /\ decisions Sample.format Sample.transpileModule Sample.twoslasher
               (ts_pane [] typed) = []
  /\ decisions Sample.format Sample.transpileModule Sample.twoslasher
               (toggle [] typed untyped) = [].
Proof. vm_compute. repeat split. Qed.

Lemma rescan_keeps_decision_witness :
  block_callback Sample.format Sample.transpileModule Sample.twoslasher
                 demo_block
  = Some (toggle (lit " demo") typed untyped)
  /\ decisions Sample.format Sample.transpileModule Sample.twoslasher
               (ts_pane (lit " demo") typed)
     = [Some (Diverged typed untyped)].
Proof.
  destruct (proj2 (rescan_keeps_decision
                     Sample.format Sample.transpileModule Sample.twoslasher
                     (Sample.fence (lit " demo") typed) demo_block
                     (Diverged typed untyped)
                     (or_introl eq_refl) eq_refl)
                  typed untyped eq_refl)
    as (Hcb & _ & _ & Hplain & _).
  split; [exact Hcb|].
  apply Hplain.
  - discriminate.
  - reflexivity.
Defined.

(** C7 fails on the code: the body holds a template literal with a blank
    line between two CRLF line ends.  The formatter prints it with a blank
    line, the transpiler leaves the literal as it is, and the canonical
    JavaScript, formatted from the transpiler's output as it stands, keeps
    the blank line: the block is decided Unchanged and the page comes out as
    it went in.  A JavaScript side that collapsed the newlines first would
    print the literal on two adjacent lines and differ from the TypeScript
    side. *)
Lemma js_side_not_collapsed_counterexample :
  map block_body (fences TemplateCase.page) = [TemplateCase.body]
  /\ collapse_newlines TemplateCase.body = TemplateCase.body
  /\ formatTS TemplateCase.format TemplateCase.body
     = Some TemplateCase.printed
  /\ TemplateCase.transpileModule TemplateCase.printed 99
     = Some TemplateCase.emitted
  /\ formatJS TemplateCase.format TemplateCase.transpileModule
              TemplateCase.printed
     = Some TemplateCase.printed
  /\ has_blank_line TemplateCase.printed = true
  /\ collapse_newlines TemplateCase.emitted
     = TemplateCase.collapsed ++ lit ";" ++ [nl]
  /\ formatTS TemplateCase.format TemplateCase.emitted
     = Some TemplateCase.collapsed
  /\ TemplateCase.collapsed <> TemplateCase.printed
  /\ decide TemplateCase.format TemplateCase.transpileModule
            Sample.twoslasher [] TemplateCase.body
     = Some Unchanged
  /\ rewrite_blocks TemplateCase.format TemplateCase.transpileModule
                    Sample.twoslasher TemplateCase.page
     = Some TemplateCase.page.
Proof. vm_compute. repeat split. discriminate. Qed.

Lemma renderings_share_formatter_witness :
  exists s tsOut js jsOut,
    prepare Sample.twoslasher [] typed = Some s
    /\ Sample.format (squeeze s) (fmt_opts) = Some tsOut
    /\ Sample.transpileModule (trim tsOut) 99 = Some js
    /\ Sample.format js fmt_opts = Some jsOut
    /\ has_blank_line (squeeze s) = false
    /\ semi fmt_opts = false /\ singleQuote fmt_opts = true
    /\ trimmed (trim tsOut) /\ trimmed (trim jsOut)
    /\ toggle [] typed untyped
       = render (Sample.fence [] typed) []
                (if str_eqb (trim jsOut) (trim tsOut) then Unchanged
                 else Diverged s (trim jsOut)).
Proof.
  apply (proj1 (renderings_share_formatter
                  Sample.format Sample.transpileModule Sample.twoslasher
                  (Sample.fence [] typed) [] typed
                  (toggle [] typed untyped))).
  reflexivity.
Defined.

(** C8 fails on the code: on a page without any block the link rewriting
    deletes the scheme and the host of a site URL, and the character that
    follows a linked name. *)
Lemma link_rewriting_deletes_counterexample :
  fences (lit "see https://vueuse.org/guide") = []
  /\ Sample.transform (lit "see https://vueuse.org/guide") guide_id
     = Some (Some (lit "see /guide"))
  /\ fences (lit "`useStorage`.") = []
  /\ Sample.transform (lit "`useStorage`.") guide_id
     = Some (Some (lit "[`useStorage`](/core/useStorage/) ")).
Proof. vm_compute. repeat split. Qed.

(** C9 fails on the code: the annotation [twoslash foo] has a token equal
    to the flag, yet the body is formatted and transpiled with its type
    query, unstripped. *)
Lemma twoslash_among_tokens_counterexample :
  has_twoslash_token (lit " twoslash foo") = true
  /\ Sample.twoslasher typed_query (lit "ts") = Some typed
  /\ prepare Sample.twoslasher (lit " twoslash foo") typed_query
     = Some typed_query
  /\ typed_query <> typed
  /\ rewrite_block Sample.format Sample.transpileModule Sample.twoslasher
                   (Sample.fence (lit " twoslash foo") typed_query)
                   (lit " twoslash foo") typed_query
     = Some (toggle (lit " twoslash foo") typed_query untyped_query).
Proof. vm_compute. repeat split. discriminate. Qed.

Lemma strip_iff_flag_only_witness :
  (prepare Sample.twoslasher flag typed_query
   = Sample.twoslasher typed_query (lit "ts")
   /\ decide Sample.format Sample.transpileModule Sample.twoslasher
             flag typed_query
      = bind (Sample.twoslasher typed_query (lit "ts"))
             (decide Sample.format Sample.transpileModule Sample.twoslasher
                     []))
  /\ (prepare Sample.twoslasher (lit " twoslash foo") typed_query
      = Some typed_query
      /\ decide Sample.format Sample.transpileModule Sample.twoslasher
                (lit " twoslash foo") typed_query
         = decide Sample.format Sample.transpileModule Sample.twoslasher
                  [] typed_query).
Proof.
  split.
  - apply (proj1 (strip_iff_flag_only
                    Sample.format Sample.transpileModule Sample.twoslasher
                    flag typed_query)).
    exists (lit " "), (lit "twoslash"), [].
    repeat split; reflexivity.
  - apply (proj2 (strip_iff_flag_only
                    Sample.format Sample.transpileModule Sample.twoslasher
                    (lit " twoslash foo") typed_query)).
    intros H. apply is_twoslash_flag_only in H. discriminate H.
Defined.

Lemma other_pages_only_link_rewriting_witness :
  Sample.transform linked_page guide_id
  = option_map Some
               (rewrite_links Sample.functionNames Sample.getFunction
                              linked_page).
Proof.
  apply (proj2 (other_pages_only_link_rewriting
                  Sample.format Sample.transpileModule Sample.twoslasher
                  Sample.functionNames Sample.getFunction Sample.packages
                  Sample.getTypeDefinition Sample.replacer Sample.existsSync
                  Sample.path_join Sample.DIR_TYPES Sample.DIR_SRC
                  linked_page guide_id eq_refl eq_refl)).
  vm_compute. lia.
Defined.

(** ** The walks of the block rewriter *)

Lemma promise_all_None_inv {A B : Type} (f : A -> option B) (l : list A) :
  promise_all (map f l) = None -> exists a, In a l /\ f a = None.
Proof.
  induction l as [|a l IH]; simpl; [discriminate|].
  destruct (f a) as [x|] eqn:E; simpl.
  - destruct (promise_all (map f l)) as [xs|]; simpl; [discriminate|].
    intros _. destruct (IH eq_refl) as (a' & Hin & Ha). eauto.
  - intros _. eauto.
Qed.

Lemma promise_all_same_text (cb : rmatch -> option str) (ms : list rmatch) :
  (forall m, In m ms -> cb m = Some (m_text m)) ->
  promise_all (map cb ms) = Some (map m_text ms).
Proof.
  induction ms as [|m ms IH]; intros H; [reflexivity|].
  simpl. rewrite (H m) by (left; reflexivity). simpl.
  rewrite IH by (intros m' Hin; apply H; right; exact Hin). reflexivity.
Qed.

Lemma ordered_from_le (ms : list rmatch) :
  forall i j, i <= j -> ordered_from j ms -> ordered_from i ms.
Proof.
  destruct ms as [|m ms]; simpl; [auto|].
  intros i j L [H1 H2]. split; [lia | exact H2].
Qed.

Lemma scan_ordered (r : re) :
  forall a b n, ordered_from (length b + n) (hits (scan r b a n)).
Proof.
  induction a as [|c a IH]; intros b n.
  - destruct n; simpl; [|exact I].
    destruct (exec_at r b []) as [m|] eqn:E; simpl; [|exact I].
    apply exec_at_text in E. destruct E as [E _]. split; [lia | exact I].
  - destruct n as [|n]; cbn [scan].
    + destruct (exec_at r b (c :: a)) as [m|] eqn:E.
      * apply exec_at_text in E. destruct E as [E _].
        cbn [hits ordered_from]. split; [lia|].
        destruct (length (m_text m)) as [|k].
        -- cbn [hits]. apply (ordered_from_le _ _ (length (c :: b) + 0));
             [simpl; lia | apply IH].
        -- apply (ordered_from_le _ _ (length (c :: b) + k));
             [simpl; lia | apply IH].
      * cbn [hits]. apply (ordered_from_le _ _ (length (c :: b) + 0));
          [simpl; lia | apply IH].
    + apply (ordered_from_le _ _ (length (c :: b) + n));
        [simpl; lia | apply IH].
Qed.

(** A match of a walk was found at a cursor of the walked text. *)
Lemma hits_scan_located (r : re) :
  forall a b n m,
    In m (hits (scan r b a n)) ->
    exists pre post, a = pre ++ post /\ exec_at r (rev pre ++ b) post = Some m.
Proof.
  induction a as [|c a IH]; intros b n m H.
  - destruct n; simpl in H; [|contradiction].
    destruct (exec_at r b []) eqn:E; simpl in H; [|contradiction].
    destruct H as [->|[]]. exists [], []. auto.
  - assert (Step : forall k, In m (hits (scan r (c :: b) a k)) ->
              exists pre post,
                c :: a = pre ++ post /\ exec_at r (rev pre ++ b) post = Some m).
    { intros k Hk. apply IH in Hk. destruct Hk as (pre & post & -> & E).
      exists (c :: pre), post. split; [reflexivity|].
      cbn [rev]. rewrite <- app_assoc. exact E. }
    destruct n as [|n]; cbn [scan] in H.
    + destruct (exec_at r b (c :: a)) as [m0|] eqn:E.
      * cbn [hits] in H. destruct H as [->|H].
        -- exists [], (c :: a). auto.
        -- destruct (length (m_text m0)); cbn [hits] in H; eapply Step; eauto.
      * cbn [hits] in H. eapply Step; eauto.
    + eapply Step; eauto.
Qed.

Section Walks.
Variable format : str -> FormatOptions -> option str.
Variable transpileModule : str -> nat -> option str.
Variable twoslasher : str -> str -> option str.

Local Abbreviation decide := (decide format transpileModule twoslasher).
Local Abbreviation block_callback :=
  (block_callback format transpileModule twoslasher).
Local Abbreviation rewrite_blocks :=
  (rewrite_blocks format transpileModule twoslasher).

(** [replaceAsync] is rejected exactly when the replacer is rejected on one
    of the matches of the text; over a text without match it never is. *)
Theorem replaceAsync_rejects_iff (s : str) (r : re)
        (cb : rmatch -> option str) :
  replaceAsync s r cb = None
  <-> exists m, In m (hits (scan r [] s 0)) /\ cb m = None.
Proof.
  rewrite replaceAsync_spec. split.
  - intros H.
    destruct (promise_all (map cb (hits (scan r [] s 0)))) eqn:P;
      [discriminate|].
    apply promise_all_None_inv in P. exact P.
  - intros (m & Hin & Hm).
    rewrite (promise_all_None cb _ m Hin Hm). reflexivity.
Qed.

(** When the replacer answers every match with the matched text itself,
    [replaceAsync] gives the text back; in particular a text without match
    comes back as it is, whatever the replacer. *)
Theorem replaceAsync_same_text (s : str) (r : re) (cb : rmatch -> option str) :
  (forall m, In m (hits (scan r [] s 0)) -> cb m = Some (m_text m)) ->
  replaceAsync s r cb = Some s.
Proof.
  intros H. rewrite replaceAsync_spec.
  rewrite (promise_all_same_text cb _ H). cbn [bind].
  rewrite interleave_src, scan_src. reflexivity.
Qed.

(** A document all of whose blocks are decided Unchanged leaves the block
    rewriter byte for byte as it entered. *)
Theorem all_unchanged_same_document (code : str) :
  (forall m, In m (fences code) ->
             decide (block_meta m) (block_body m) = Some Unchanged) ->
  rewrite_blocks code = Some code.
Proof.
  intros H. unfold rewrite_blocks. rewrite replaceAsync_spec.
  rewrite (promise_all_same_text block_callback).
  - cbn [bind]. rewrite interleave_src, scan_src. reflexivity.
  - intros m Hin. rewrite block_callback_decide.
    rewrite (H m Hin). reflexivity.
Qed.

(** The blocks of a document do not overlap: each starts at or after the
    end of the block before it. *)
Theorem blocks_do_not_overlap (code : str) : ordered_from 0 (fences code).
Proof. apply (scan_ordered re_fence code [] 0). Qed.


(** The original fence stands in the output exactly for the blocks decided
    Unchanged: the toggle of a Diverged block never reads like the fence. *)
Theorem fence_kept_iff_unchanged (code : str) (m : rmatch) (d : Decision) :
  In m (fences code) ->
  decide (block_meta m) (block_body m) = Some d ->
  (block_callback m = Some (m_text m) <-> d = Unchanged).
Proof.
  intros Hin Hd. rewrite block_callback_decide, Hd. cbn [option_map].
  destruct d as [|ts js]; cbn [render].
  - split; reflexivity.
  - split; [|discriminate]. intros H. exfalso.
    destruct (fence_block_shape code m Hin) as (mo & body & _ & _ & Ht & _).
    rewrite Ht in H. unfold fence_text, fence_open, toggle, lines in H.
    cbn [join app lit list_ascii_of_string] in H. inversion H.
Qed.

(** The TS pane of a toggle is matched again by the pattern exactly when the
    block had an annotation.  Without one the pane opens with [```ts] and a
    space, where the pattern never matches, whatever follows; with one, the
    match is the whole pane, its annotation group has one more space in
    front and its body group is the displayed body. *)
Theorem ts_pane_rematched_iff_annotated
        (b rest snippet : str) (mo : option str) :
  meta_ok mo -> body_ok snippet ->
  exec_at re_fence b (ts_pane (default mo) snippet ++ rest)
  = match mo with
    | None => None
    | Some meta =>
        Some (MkMatch (length b) (ts_pane meta snippet)
                      [(2, snippet); (1, " "%char :: meta)])
    end.
Proof.
  intros Hm Hb. destruct mo as [meta|]; cbn [default].
  - rewrite ts_pane_fence_text.
    apply (fence_exec_intro b (Some (" "%char :: meta)) snippet rest);
      [|exact Hb].
    destruct Hm as (m1 & -> & Hne & Hall).
    exists (" "%char :: m1).
    split; [reflexivity|]. split; [discriminate|].
    cbn [forallb]. rewrite Hall. reflexivity.
  - reflexivity.
Qed.
End Walks.

(** ** Newlines, ids and paths *)

Lemma squeeze_fixed (s : str) : has_blank_line s = false -> squeeze s = s.
Proof.
  induction s as [|c s IH]; [reflexivity|].
  intros H. rewrite squeeze_cons.
  destruct s as [|d t].
  - destruct (is_char nl c); reflexivity.
  - rewrite has_blank_line_cons in H. apply orb_false_elim in H.
    destruct H as [H1 H2]. rewrite (IH H2).
    destruct (is_char nl c); [|reflexivity].
    simpl in H1. rewrite H1. reflexivity.
Qed.

Lemma squeeze_length (s : str) : length (squeeze s) <= length s.
Proof.
  induction s as [|c s IH]; [simpl; lia|].
  rewrite squeeze_cons.
  destruct (is_char nl c); [|simpl; lia].
  destruct s as [|d t]; [simpl; lia|].
  destruct (is_char nl d); simpl in *; lia.
Qed.

(** Collapsing newlines ([snippet.replace(/\n+/g, '\n')]) is idempotent,
    changes a snippet exactly when it has two newlines in a row, and never
    lengthens it. *)
Theorem collapse_newlines_idempotent (s : str) :
  collapse_newlines (collapse_newlines s) = collapse_newlines s
  /\ (collapse_newlines s = s <-> has_blank_line s = false)
  /\ length (collapse_newlines s) <= length s.
Proof.
  rewrite !collapse_newlines_squeeze. split; [|split].
  - apply squeeze_fixed. apply squeeze_no_blank_line.
  - split.
    + intros E. rewrite <- E. apply squeeze_no_blank_line.
    + apply squeeze_fixed.
  - apply squeeze_length.
Qed.

Lemma find_first_sound (r : re) :
  forall a b m,
    find_first r b a = Some m ->
    exists pre post, a = pre ++ post /\ exec_at r (rev pre ++ b) post = Some m.
Proof.
  induction a as [|c a IH]; intros b m H.
  - simpl in H. destruct (exec_at r b []) eqn:E; [|discriminate].
    inversion H; subst. exists [], []. auto.
  - cbn [find_first] in H.
    destruct (exec_at r b (c :: a)) eqn:E.
    + inversion H; subst. exists [], (c :: a). auto.
    + apply IH in H. destruct H as (pre & post & -> & H).
      exists (c :: pre), post. split; [reflexivity|].
      cbn [rev]. rewrite <- app_assoc. exact H.
Qed.

Lemma find_first_complete (r : re) :
  forall pre post b,
    exec_at r (rev pre ++ b) post <> None ->
    find_first r b (pre ++ post) <> None.
Proof.
  induction pre as [|c pre IH]; intros post b H.
  - cbn [app rev] in *. destruct post; cbn [find_first];
      destruct (exec_at r b _); congruence.
  - cbn [app find_first].
    destruct (exec_at r b (c :: pre ++ post)); [discriminate|].
    apply IH. cbn [rev] in H. rewrite <- app_assoc in H. exact H.
Qed.

Lemma exec_md (b a : str) :
  exec_at re_md b a <> None
  <-> exists post, a = lit ".md" ++ post /\ starts_nonword post.
Proof.
  unfold exec_at, re_md. cbn [run]. rewrite run_Lit.
  destruct (strip_prefix (lit ".md") a) as [post|] eqn:E.
  - apply strip_prefix_inv in E. subst a.
    unfold at_boundary. cbn [rev lit list_ascii_of_string app].
    change (is_word "d") with true.
    split.
    + intros H. exists post. split; [reflexivity|].
      destruct post as [|c t]; [exact I|]. simpl.
      destruct (is_word c); [|reflexivity]. contradiction H. reflexivity.
    + intros (post' & E & H). inversion E. subst post'.
      destruct post as [|c t]; [discriminate|].
      simpl in H. rewrite H. discriminate.
  - split; [congruence|]. intros (post & -> & _).
    rewrite strip_prefix_app in E. discriminate.
Qed.

Lemma test_md (id : str) : test re_md id = true <-> md_id id.
Proof.
  unfold test, md_id. split.
  - destruct (find_first re_md [] id) as [m|] eqn:F; [|discriminate].
    intros _. apply find_first_sound in F.
    destruct F as (pre & rest & -> & F).
    assert (N : exec_at re_md (rev pre ++ []) rest <> None) by congruence.
    apply exec_md in N. destruct N as (post & -> & H). eauto.
  - intros (pre & post & -> & H).
    assert (N : find_first re_md [] (pre ++ lit ".md" ++ post) <> None).
    { apply find_first_complete. apply exec_md. eauto. }
    destruct (find_first re_md [] (pre ++ lit ".md" ++ post));
      [reflexivity | congruence].
Qed.

Lemma split_on_no_sep (sep : ascii) (s : str) :
  ~ In sep s -> split_on sep s = [s].
Proof.
  induction s as [|c s IH]; intros H; [reflexivity|].
  cbn [split_on]. destruct (Ascii.eqb c sep) eqn:E.
  - apply Ascii.eqb_eq in E. subst c. exfalso. apply H. left. reflexivity.
  - rewrite IH by (intros Hin; apply H; right; exact Hin). reflexivity.
Qed.

Lemma join_cons (sep x : str) (l : list str) :
  l <> [] -> join sep (x :: l) = x ++ sep ++ join sep l.
Proof. destruct l; [congruence | reflexivity]. Qed.

Lemma join_char (sep : str) (c : ascii) (x : str) (l : list str) :
  join sep ((c :: x) :: l) = c :: join sep (x :: l).
Proof. destruct l; reflexivity. Qed.

Lemma split_join (sep : ascii) (s : str) :
  join [sep] (split_on sep s) = s.
Proof.
  induction s as [|c s IH]; [reflexivity|].
  cbn [split_on]. destruct (Ascii.eqb c sep) eqn:E.
  - apply Ascii.eqb_eq in E. subst c.
    rewrite join_cons by apply split_on_nonempty. rewrite IH. reflexivity.
  - pose proof (split_on_nonempty sep s) as N.
    destruct (split_on sep s) as [|x l]; [congruence|].
    rewrite join_char, IH. reflexivity.
Qed.

Lemma join_last (sep : str) (l : list str) (x : str) :
  exists p, join sep (l ++ [x]) = p ++ x.
Proof.
  induction l as [|y l (p & IH)].
  - exists []. reflexivity.
  - cbn [app]. rewrite join_cons by (destruct l; discriminate).
    rewrite IH. exists (y ++ sep ++ p). rewrite <- !app_assoc. reflexivity.
Qed.

Lemma slice_last_app {A : Type} (pre l : list A) :
  slice_last (length l) (pre ++ l) = l.
Proof.
  unfold slice_last. rewrite length_app.
  replace (length pre + length l - length l) with (length pre) by lia.
  rewrite skipn_app, skipn_all, Nat.sub_diag. reflexivity.
Qed.

(** ** The hook and the generated sections *)

Lemma lines_starts_nl (x : str) (l : list str) : lines ([] :: x :: l) <> [].
Proof. unfold lines. cbn [join]. discriminate. Qed.

Lemma demoSection_nonempty (URL d : str) : demoSection URL (Some d) <> [].
Proof.
  unfold demoSection. destruct (endsWith d (lit ".client.vue"));
    apply lines_starts_nl.
Qed.

Lemma find_none_iff {A : Type} (p : A -> bool) (l : list A) :
  find p l = None <-> forall x, In x l -> p x = false.
Proof.
  split; [apply find_none|].
  intros H. destruct (find p l) as [x|] eqn:F; [|reflexivity].
  apply find_some in F. destruct F as [Hin Hp].
  rewrite (H x Hin) in Hp. discriminate.
Qed.

Section Hook.
Variable format : str -> FormatOptions -> option str.
Variable transpileModule : str -> nat -> option str.
Variable twoslasher : str -> str -> option str.
Variable functionNames : list str.
Variable getFunction : str -> option VueUseFunction.
Variable packages : list PackageManifest.
Variable getTypeDefinition : str -> str -> option (option str).
Variable replacer : str -> str -> str -> str -> str.
Variable existsSync : str -> bool.
Variable path_join : list str -> str.
Variable DIR_TYPES : str.
Variable DIR_SRC : str.

Local Abbreviation transform :=
  (transform format transpileModule twoslasher functionNames getFunction
             packages getTypeDefinition replacer existsSync path_join
             DIR_TYPES DIR_SRC).
Local Abbreviation function_page :=
  (function_page format transpileModule twoslasher packages getTypeDefinition
                 replacer existsSync path_join DIR_TYPES DIR_SRC).
Local Abbreviation getFunctionMarkdown :=
  (getFunctionMarkdown packages getTypeDefinition existsSync path_join
                       DIR_SRC).
Local Abbreviation rewrite_links := (rewrite_links functionNames getFunction).
Local Abbreviation linkify := (linkify functionNames getFunction).
Local Abbreviation rewrite_blocks :=
  (rewrite_blocks format transpileModule twoslasher).
Local Abbreviation block_callback :=
  (block_callback format transpileModule twoslasher).
Local Abbreviation resolve_name := (resolve_name functionNames).

(** The hook answers [null] exactly for the ids that do not hold [.md] at
    the end of a word: [index.mdx] is skipped, [index.md?raw] is not. *)
Theorem transform_null_iff (code id : str) :
  transform code id = Some None <-> ~ md_id id.
Proof.
  rewrite <- test_md. unfold transform.
  destruct (test re_md id); cbn [negb].
  - split; [|intros H; contradiction H; reflexivity].
    intros H. exfalso.
    destruct (rewrite_links code) as [c|]; cbn [bind] in H; [|discriminate].
    cbv zeta in H.
    destruct (resolve_name _) as [name|]; cbn [bind] in H; [|discriminate].
    destruct (includes functionNames name && is_index_md _);
      [|discriminate].
    destruct (function_page c _ _); cbn [bind] in H; discriminate.
  - split; [discriminate | reflexivity].
Qed.

(** On a markdown id without any ['/'] the second path component is
    undefined and [_name.toLowerCase()] throws as soon as the registry has a
    name to compare with: the hook is rejected. *)
Theorem transform_rejects_bare_id (code id : str) :
  md_id id -> ~ In "/"%char id -> functionNames <> [] ->
  transform code id = None.
Proof.
  intros Hmd Hbare Hreg. apply test_md in Hmd.
  unfold transform. rewrite Hmd. cbn [negb].
  destruct (rewrite_links code) as [c|]; cbn [bind]; [|reflexivity].
  cbv zeta. rewrite (split_on_no_sep _ _ Hbare).
  cbn [slice_last length Nat.sub skipn nth_error resolve_name].
  destruct functionNames; [congruence | reflexivity].
Qed.

(** An id that ends in [<pkg>/<dir>/index.md], where [<dir>] is a registered
    function name up to the case of its letters, is a function page: after
    the link rewriting the page is built for [<pkg>] and for the name as the
    registry spells it (the first registered name that fits), not as the
    directory does. *)
Theorem function_page_dispatch (code id pkg d n : str) (pre : list str) :
  split_on "/" id = pre ++ [pkg; d; lit "index.md"] ->
  find (fun x => str_eqb (toLowerCase x) (toLowerCase d)) functionNames
  = Some n ->
  n <> [] ->
  transform code id
  = (c <- rewrite_links code ;;
     p <- function_page c pkg n ;;
     Some (Some p)).
Proof.
  intros Hsplit Hfind Hn.
  assert (Hmd : test re_md id = true).
  { apply test_md. rewrite <- (split_join "/" id), Hsplit.
    change (pre ++ [pkg; d; lit "index.md"])
      with (pre ++ [pkg; d] ++ [lit "index.md"]).
    rewrite app_assoc.
    destruct (join_last ["/"%char] (pre ++ [pkg; d]) (lit "index.md"))
      as (p & ->).
    exists (p ++ lit "index"), []. split; [|exact I].
    rewrite <- app_assoc. reflexivity. }
  unfold transform. rewrite Hmd. cbn [negb].
  destruct (rewrite_links code) as [c|]; cbn [bind]; [|reflexivity].
  cbv zeta. rewrite Hsplit.
  pose proof (slice_last_app pre [pkg; d; lit "index.md"]) as S3.
  cbn [length] in S3. rewrite S3.
  cbn [nth_error resolve_name]. rewrite Hfind.
  destruct n as [|c0 n]; [congruence|]. cbn [bind show].
  apply find_some in Hfind. destruct Hfind as [Hin _].
  assert (Hinc : includes functionNames (Some (c0 :: n)) = true).
  { cbn [includes]. apply existsb_exists. exists (c0 :: n).
    split; [exact Hin | apply str_eqb_refl]. }
  match goal with
  | |- context [includes ?l ?x] =>
      replace (includes l x) with true by (symmetry; exact Hinc)
  end.
  reflexivity.
Qed.

Lemma getFunctionMarkdown_None_iff (pkg name : str) :
  getFunctionMarkdown pkg name = None
  <-> getTypeDefinition pkg name = None
      \/ forall p, In p packages -> pkg_name p <> pkg.
Proof.
  unfold getFunctionMarkdown. cbv zeta.
  destruct (getTypeDefinition pkg name) as [types|]; cbn [bind].
  - destruct (find (fun p => str_eqb (pkg_name p) pkg) packages) as [p|] eqn:F;
      cbn [bind].
    + split; [discriminate|]. intros [H|H]; [discriminate|].
      apply find_some in F. destruct F as [Hin Hp].
      apply str_eqb_eq in Hp. exfalso. exact (H p Hin Hp).
    + split; [|reflexivity]. intros _. right. intros p Hin E.
      pose proof (find_none _ _ F p Hin) as N. cbn in N.
      apply str_eqb_neq in N. contradiction.
  - split; [auto | reflexivity].
Qed.

(** [getFunctionMarkdown] is rejected exactly when the type definitions are,
    or when the package is not in the package list ([find] gives
    [undefined] and reading [addon] throws); a function without type
    definitions or without demo is no error. *)
Theorem getFunctionMarkdown_rejects_iff (pkg name : str) :
  (exists footer header,
      getFunctionMarkdown pkg name = Some (footer, header))
  <-> getTypeDefinition pkg name <> None
      /\ exists p, In p packages /\ pkg_name p = pkg.
Proof.
  split.
  - intros (footer & header & H). split.
    + intros E. assert (N : getFunctionMarkdown pkg name = None)
        by (apply getFunctionMarkdown_None_iff; left; exact E).
      congruence.
    + unfold getFunctionMarkdown in H. cbv zeta in H.
      destruct (getTypeDefinition pkg name); cbn [bind] in H; [|discriminate].
      destruct (find (fun p => str_eqb (pkg_name p) pkg) packages) as [p|] eqn:F;
        cbn [bind] in H; [|discriminate].
      apply find_some in F. destruct F as [Hin Hp].
      apply str_eqb_eq in Hp. eauto.
  - intros (Ht & p & Hin & Hp).
    destruct (getFunctionMarkdown pkg name) as [[footer header]|] eqn:E;
      [eauto|].
    apply getFunctionMarkdown_None_iff in E. destruct E as [E|E].
    + contradiction.
    + exfalso. exact (E p Hin Hp).
Qed.

(** The header of a function page is empty, and then not spliced in,
    exactly when the function has neither [demo.vue] nor [demo.client.vue]
    and its package is no add-on. *)
Theorem header_empty_iff (pkg name footer header : str) (p : PackageManifest) :
  getFunctionMarkdown pkg name = Some (footer, header) ->
  find (fun q => str_eqb (pkg_name q) pkg) packages = Some p ->
  (header = []
   <-> existsSync (path_join [path_join [DIR_SRC; pkg; name]; lit "demo.vue"])
       = false
       /\ existsSync (path_join [path_join [DIR_SRC; pkg; name];
                                 lit "demo.client.vue"]) = false
       /\ pkg_addon p = false).
Proof.
  unfold getFunctionMarkdown. cbv zeta. intros H Hp.
  destruct (getTypeDefinition pkg name) as [types|]; cbn [bind] in H;
    [|discriminate].
  rewrite Hp in H. cbn [bind find] in H.
  destruct (existsSync (path_join [path_join [DIR_SRC; pkg; name];
                                   lit "demo.vue"])).
  - injection H as _ Hh.
    split; [intros ->; simpl in Hh; discriminate Hh|].
    intros (? & _); discriminate.
  - destruct (existsSync (path_join [path_join [DIR_SRC; pkg; name];
                                     lit "demo.client.vue"])).
    + injection H as _ Hh.
      split; [intros ->; simpl in Hh; discriminate Hh|].
      intros (_ & ? & _); discriminate.
    + destruct (pkg_addon p); injection H as _ Hh.
      * split; [intros ->; simpl in Hh; discriminate Hh|].
        intros (_ & _ & ?); discriminate.
      * split; auto.
Qed.

(** A function page fails to build exactly when a block of the page is
    rejected, the type definitions are, or the package is unknown. *)
Theorem function_page_rejects_iff (code pkg name : str) :
  function_page code pkg name = None
  <-> (exists m, In m (fences code) /\ block_callback m = None)
      \/ getTypeDefinition pkg name = None
      \/ forall p, In p packages -> pkg_name p <> pkg.
Proof.
  unfold function_page. cbv zeta.
  assert (B : rewrite_blocks code = None
              <-> exists m, In m (fences code) /\ block_callback m = None).
  { unfold rewrite_blocks. rewrite replaceAsync_spec. split.
    - intros H.
      destruct (promise_all (map block_callback (hits (scan re_fence [] code 0))))
        eqn:P; [discriminate|].
      apply promise_all_None_inv in P. exact P.
    - intros (m & Hin & Hm).
      unfold fences in Hin.
      rewrite (promise_all_None block_callback _ m Hin Hm). reflexivity. }
  pose proof (getFunctionMarkdown_None_iff pkg name) as G.
  destruct (rewrite_blocks code) as [c|] eqn:R; cbn [bind].
  - destruct (getFunctionMarkdown pkg name) as [fm|] eqn:M; cbn [bind].
    + split; [discriminate|].
      intros [H|H]; [apply B in H; discriminate | apply G in H; discriminate].
    + split; [|reflexivity]. intros _. right. apply G. reflexivity.
  - split; [|reflexivity]. intros _. left. apply B. reflexivity.
Qed.
End Hook.

(** ** The link steps *)

Lemma no_hits_same_text (r : re) (s : str) :
  hits (scan r [] s 0) = [] -> interleave (gaps (scan r [] s 0)) [] = s.
Proof.
  intros H. pose proof (scan_interleave r s) as E.
  rewrite H in E. cbn [map] in E. symmetry. exact E.
Qed.

Lemma hits_need_start (r : re) (c : ascii) (s : str) :
  (forall b a m, exec_at r b a = Some m -> exists t, a = c :: t) ->
  ~ In c s -> hits (scan r [] s 0) = [].
Proof.
  intros Hr Hs.
  destruct (hits (scan r [] s 0)) as [|m ms] eqn:E; [reflexivity|].
  exfalso.
  assert (Hin : In m (hits (scan r [] s 0))) by (rewrite E; left; reflexivity).
  apply hits_scan_located in Hin. destruct Hin as (pre & post & -> & X).
  apply Hr in X. destruct X as (t & ->).
  apply Hs. apply in_or_app. right. left. reflexivity.
Qed.

Lemma exec_link_start (names : list str) (b a : str) (m : rmatch) :
  exec_at (re_link names) b a = Some m -> exists t, a = bq :: t.
Proof.
  unfold exec_at, re_link. cbn [Seqs run]. intros H.
  destruct a as [|c t]; [discriminate|].
  destruct (is_char bq c) eqn:E; [|discriminate].
  apply is_char_eq in E. subst c. eauto.
Qed.

Lemma exec_fence_start (b a : str) (m : rmatch) :
  exec_at re_fence b a = Some m -> exists t, a = nl :: bq :: t.
Proof.
  intros H. apply fence_exec_inv in H.
  destruct H as (mo & body & rest & _ & _ & -> & _).
  unfold fence_text, fence_open. cbn [lit list_ascii_of_string app]. eauto.
Qed.

Lemma run_Alts_Lit {R : Type} (alts : list str) :
  forall b a cs (k : str -> str -> caps -> option R) x,
    run (Alts (map Lit alts)) b a cs k = Some x ->
    exists alt a',
      In alt alts /\ a = alt ++ a' /\ k (rev alt ++ b) a' cs = Some x.
Proof.
  induction alts as [|p alts IH]; intros b a cs k x H; [discriminate|].
  assert (One : run (Lit p) b a cs k = Some x ->
                exists alt a',
                  In alt (p :: alts) /\ a = alt ++ a'
                  /\ k (rev alt ++ b) a' cs = Some x).
  { rewrite run_Lit. intros H1.
    destruct (strip_prefix p a) as [a'|] eqn:E; [|discriminate].
    apply strip_prefix_inv in E. exists p, a'.
    split; [left; reflexivity | auto]. }
  destruct alts as [|q alts]; [exact (One H)|].
  change (Alts (map Lit (p :: q :: alts)))
    with (Alt (Lit p) (Alts (map Lit (q :: alts)))) in H.
  cbn [run] in H.
  destruct (run (Lit p) b a cs k) eqn:E1.
  - inversion H; subst. exact (One eq_refl).
  - apply IH in H. destruct H as (alt & a' & Hin & Ha & Hk).
    exists alt, a'. split; [right; exact Hin | auto].
Qed.

Lemma close_last_app (mid : list str) (x last : str) :
  close_last (x :: mid ++ [last]) = x :: mid ++ [last ++ lit "}"].
Proof.
  revert x. induction mid as [|y mid IH]; intros x; [reflexivity|].
  cbn [app]. change (close_last (x :: y :: mid ++ [last]))
    with (x :: close_last (y :: mid ++ [last])).
  rewrite IH. reflexivity.
Qed.

Lemma firstn_len_minus {A : Type} (x y a : list A) :
  a = x ++ y -> firstn (length a - length y) a = x.
Proof. intros ->. apply firstn_app_minus. Qed.

Lemma firstn_one_minus {A : Type} (c : A) (t : list A) :
  firstn (length (c :: t) - length t) (c :: t) = [c].
Proof.
  cbn [length]. replace (S (length t) - length t) with 1 by lia. reflexivity.
Qed.

Lemma exec_site_text (b a : str) (m : rmatch) :
  exec_at re_site b a = Some m ->
  m_text m = lit "http://vueuse.org/" \/ m_text m = lit "https://vueuse.org/".
Proof.
  unfold exec_at, re_site. cbn [Seqs run]. rewrite run_Lit. intros H.
  destruct (strip_prefix (lit "http") a) as [a1|] eqn:E1; [|discriminate].
  apply strip_prefix_inv in E1.
  assert (Plain : run (Lit (lit "://vueuse.org/")) (rev (lit "http") ++ b) a1 []
                      (fun _ a' cs =>
                         Some (MkMatch (length b)
                                       (firstn (length a - length a') a) cs))
                  = Some m -> m_text m = lit "http://vueuse.org/").
  { rewrite run_Lit. intros P.
    destruct (strip_prefix (lit "://vueuse.org/") a1) as [a2|] eqn:E2;
      [|discriminate].
    apply strip_prefix_inv in E2. subst a1 a.
    destruct m as [i t c]. injection P as _ Pt _. cbn [m_text].
    rewrite <- Pt.
    exact (firstn_app_minus (lit "http" ++ lit "://vueuse.org/") a2). }
  destruct a1 as [|c a2].
  - left. apply Plain. exact H.
  - destruct (is_char "s" c) eqn:Es.
    + apply is_char_eq in Es. subst c.
      destruct (run (Lit (lit "://vueuse.org/")) ("s"%char :: rev (lit "http") ++ b)
                    a2 []
                    (fun _ a' cs =>
                       Some (MkMatch (length b)
                                     (firstn (length a - length a') a) cs)))
        as [x|] eqn:S.
      * inversion H; subst x. right. rewrite run_Lit in S.
        destruct (strip_prefix (lit "://vueuse.org/") a2) as [a3|] eqn:E2;
          [|discriminate].
        apply strip_prefix_inv in E2. subst a2 a.
        destruct m as [i t c]. injection S as _ St _. cbn [m_text].
        rewrite <- St.
        exact (firstn_app_minus (lit "https://vueuse.org/") a3).
      * left. apply Plain. exact H.
    + left. apply Plain. exact H.
Qed.

Lemma interleave_shorter (f : rmatch -> str) (ps : list piece) :
  (forall m, In m (hits ps) -> length (f m) <= length (m_text m)) ->
  length (interleave (gaps ps) (map f (hits ps)))
  <= length (interleave (gaps ps) (map m_text (hits ps))).
Proof.
  induction ps as [|[c|m] ps IH]; intros H.
  - simpl. lia.
  - rewrite !interleave_keep. cbn [hits] in *. simpl. apply le_n_S.
    apply IH. exact H.
  - cbn [hits map gaps interleave app] in *. rewrite !length_app.
    pose proof (H m (or_introl eq_refl)).
    pose proof (IH (fun m' Hm => H m' (or_intror Hm))). lia.
Qed.

Section Links.
Variable format : str -> FormatOptions -> option str.
Variable transpileModule : str -> nat -> option str.
Variable twoslasher : str -> str -> option str.
Variable functionNames : list str.
Variable getFunction : str -> option VueUseFunction.

Local Abbreviation linkify := (linkify functionNames getFunction).
Local Abbreviation rewrite_blocks :=
  (rewrite_blocks format transpileModule twoslasher).

(** A document without a back quote has no name to link and no fence: it
    passes the linkifying step and the block rewriter unchanged, and neither
    step can fail on it, whatever the registry and the tools. *)
Theorem no_backquote_no_rewrite (code : str) :
  ~ In bq code ->
  linkify code = Some code /\ rewrite_blocks code = Some code.
Proof.
  intros H. split.
  - unfold linkify, replace_all. rewrite fold_pieces_stateless.
    assert (E : hits (scan (re_link functionNames) [] code 0) = []).
    { apply (hits_need_start _ bq); [|exact H].
      intros b a m. apply exec_link_start. }
    rewrite E. cbn [map promise_all bind fst].
    rewrite (no_hits_same_text _ _ E). reflexivity.
  - unfold rewrite_blocks. rewrite replaceAsync_spec.
    assert (E : hits (scan re_fence [] code 0) = []).
    { destruct (hits (scan re_fence [] code 0)) as [|m ms] eqn:E;
        [reflexivity|].
      exfalso.
      assert (Hin : In m (hits (scan re_fence [] code 0)))
        by (rewrite E; left; reflexivity).
      apply hits_scan_located in Hin. destruct Hin as (pre & post & -> & X).
      apply exec_fence_start in X. destruct X as (t & ->).
      apply H. apply in_or_app. right. right. left. reflexivity. }
    rewrite E. cbn [map promise_all bind].
    rewrite (no_hits_same_text _ _ E). reflexivity.
Qed.

(** What the linkifying pattern matches: a back quote, one of the
    alternatives of the pattern, a back quote and one more character that is
    no line end; the two groups are the alternative and that character.  The
    braces written around the alternatives belong to the first and to the
    last of them, so the first and the last name of the registry are only
    matched with a brace attached. *)
Theorem linked_name_shape (code : str) :
  (forall m,
      In m (hits (scan (re_link functionNames) [] code 0)) ->
      exists alt c,
        In alt (link_alts functionNames)
        /\ not_line_end c = true
        /\ m_text m = bq :: alt ++ [bq; c]
        /\ m_group m 1 = Some alt
        /\ m_group m 2 = Some [c])
  /\ (forall first mid last,
         functionNames = first :: mid ++ [last] ->
         link_alts functionNames
         = (lit "{" ++ first) :: mid ++ [last ++ lit "}"]).
Proof.
  split.
  - intros m Hin. apply hits_scan_located in Hin.
    destruct Hin as (pre & a & _ & H).
    unfold exec_at, re_link in H. cbn [Seqs run] in H.
    destruct a as [|q a1]; [discriminate|].
    destruct (is_char bq q) eqn:Eq; [|discriminate].
    apply is_char_eq in Eq. subst q.
    apply run_Alts_Lit in H.
    destruct H as (alt & a2 & Halt & -> & H).
    destruct a2 as [|q a3]; [discriminate|].
    destruct (is_char bq q) eqn:Eq; [|discriminate].
    apply is_char_eq in Eq. subst q.
    destruct a3 as [|c a4]; [discriminate|].
    destruct (not_line_end c) eqn:Ec; [|discriminate].
    destruct m as [i t cs]. injection H as _ Ht Hcs. exists alt, c.
    split; [exact Halt|]. split; [exact Ec|].
    unfold m_group. cbn [m_text m_caps]. rewrite <- Ht, <- Hcs.
    split; [|split].
    + assert (Ea : bq :: alt ++ bq :: c :: a4 = (bq :: alt ++ [bq; c]) ++ a4)
        by (cbn [app]; rewrite <- app_assoc; reflexivity).
      exact (firstn_len_minus (bq :: alt ++ [bq; c]) a4 _ Ea).
    + cbn [get_cap Nat.eqb]. f_equal.
      exact (firstn_app_minus alt (bq :: c :: a4)).
    + cbn [get_cap Nat.eqb]. f_equal. exact (firstn_one_minus c a4).
  - intros first mid last ->. unfold link_alts.
    apply close_last_app.
Qed.

(** Making the site links relative removes nothing but the two site
    prefixes, each replaced by ['/'], and so never lengthens the text. *)
Theorem relativize_removes_site_prefix (code : str) :
  (forall m,
      In m (hits (scan re_site [] code 0)) ->
      m_text m = lit "http://vueuse.org/"
      \/ m_text m = lit "https://vueuse.org/")
  /\ relativize code
     = interleave (gaps (scan re_site [] code 0))
                  (map (fun _ => lit "/") (hits (scan re_site [] code 0)))
  /\ length (relativize code) <= length code.
Proof.
  assert (T : forall m, In m (hits (scan re_site [] code 0)) ->
                        m_text m = lit "http://vueuse.org/"
                        \/ m_text m = lit "https://vueuse.org/").
  { intros m Hin. apply hits_scan_located in Hin.
    destruct Hin as (pre & post & _ & H). exact (exec_site_text _ _ _ H). }
  split; [exact T|]. split.
  - unfold relativize. apply replace_all_pure_spec.
  - unfold relativize. rewrite replace_all_pure_spec.
    pose proof (f_equal (@length ascii) (scan_interleave re_site code)) as L.
    rewrite L.
    apply interleave_shorter. intros m Hin.
    destruct (T m Hin) as [-> | ->]; simpl; lia.
Qed.
End Links.

(** ** What the hook deletes *)

(** *** Text that is only added *)

Lemma only_adds_refl (s : str) : only_adds s s.
Proof. induction s; constructor; assumption. Qed.

Lemma only_adds_nil (s : str) : only_adds [] s.
Proof. induction s; constructor; assumption. Qed.

Lemma only_adds_trans (a b c : str) :
  only_adds a b -> only_adds b c -> only_adds a c.
Proof.
  intros Hab Hbc. revert a Hab.
  induction Hbc as [|x b c Hbc IH|x b c Hbc IH]; intros a Hab.
  - exact Hab.
  - inversion Hab; subst.
    + apply adds_keep. apply IH. assumption.
    + apply adds_new. apply IH. assumption.
  - apply adds_new. apply IH. exact Hab.
Qed.

Lemma only_adds_app (a b c d : str) :
  only_adds a b -> only_adds c d -> only_adds (a ++ c) (b ++ d).
Proof.
  intros Hab Hcd. induction Hab; cbn [app].
  - exact Hcd.
  - apply adds_keep. exact IHHab.
  - apply adds_new. exact IHHab.
Qed.

Lemma only_adds_insert (pre ins post : str) :
  only_adds (pre ++ post) (pre ++ ins ++ post).
Proof.
  apply only_adds_app; [apply only_adds_refl|].
  change post with ([] ++ post) at 1.
  apply only_adds_app; [apply only_adds_nil | apply only_adds_refl].
Qed.

(** *** The engine: what a pattern consumes *)

Section Consumes.
Context {R : Type}.

Lemma plus_greedy_consumes (p : ascii -> bool) (k : @kont R) :
  forall a b x, plus_greedy p b a k = Some x ->
                exists t a', a = t ++ a' /\ k (rev t ++ b) a' = Some x.
Proof.
  induction a as [|c a IH]; intros b x H; simpl in H; [discriminate|].
  destruct (p c); [|discriminate].
  destruct (plus_greedy p (c :: b) a k) eqn:E.
  - inversion H; subst. apply IH in E. destruct E as (t & a' & -> & E).
    exists (c :: t), a'. split; [reflexivity|].
    cbn [rev]. rewrite <- app_assoc. exact E.
  - exists [c], a. split; [reflexivity | exact H].
Qed.

Lemma plus_lazy_consumes (p : ascii -> bool) (k : @kont R) :
  forall a b x, plus_lazy p b a k = Some x ->
                exists t a', a = t ++ a' /\ k (rev t ++ b) a' = Some x.
Proof.
  induction a as [|c a IH]; intros b x H; simpl in H; [discriminate|].
  destruct (p c); [|discriminate].
  destruct (k (c :: b) a) eqn:E.
  - inversion H; subst. exists [c], a. split; [reflexivity | exact E].
  - apply IH in H. destruct H as (t & a' & -> & H).
    exists (c :: t), a'. split; [reflexivity|].
    cbn [rev]. rewrite <- app_assoc. exact H.
Qed.

Lemma rep_greedy_consumes (p : ascii -> bool) (k : @kont R) :
  forall hi lo a b x, rep_greedy p lo hi b a k = Some x ->
                      exists t a', a = t ++ a' /\ k (rev t ++ b) a' = Some x.
Proof.
  assert (Stop : forall lo a b x,
             (if lo =? 0 then k b a else None) = Some x ->
             exists t a', a = t ++ a' /\ k (rev t ++ b) a' = Some x).
  { intros lo a b x H. destruct (lo =? 0); [|discriminate].
    exists [], a. split; [reflexivity | exact H]. }
  induction hi as [|hi IH]; intros lo a b x H; cbn [rep_greedy] in H.
  - eapply Stop; eauto.
  - destruct a as [|c a]; [eapply Stop; eauto|].
    destruct (p c); [|eapply Stop; eauto].
    destruct (rep_greedy p (pred lo) hi (c :: b) a k) eqn:E;
      [|eapply Stop; eauto].
    inversion H; subst. apply IH in E. destruct E as (t & a' & -> & E).
    exists (c :: t), a'. split; [reflexivity|].
    cbn [rev]. rewrite <- app_assoc. exact E.
Qed.

Lemma run_consumes (r : re) :
  forall b a cs (k : str -> str -> caps -> option R) x,
    run r b a cs k = Some x ->
    exists t a' cs', a = t ++ a' /\ k (rev t ++ b) a' cs' = Some x.
Proof.
  induction r; intros b a cs k x H; cbn [run] in H.
  - exists [], a, cs. auto.
  - destruct a as [|c a]; [discriminate|].
    destruct (p c); [|discriminate].
    exists [c], a, cs. auto.
  - apply IHr1 in H. destruct H as (t1 & a1 & cs1 & -> & H).
    apply IHr2 in H. destruct H as (t2 & a2 & cs2 & -> & H).
    exists (t1 ++ t2), a2, cs2. split; [apply app_assoc|].
    rewrite rev_app_distr, <- app_assoc. exact H.
  - destruct (run r1 b a cs k) eqn:E.
    + inversion H; subst. eapply IHr1; eauto.
    + eapply IHr2; eauto.
  - destruct (run r b a cs k) eqn:E.
    + inversion H; subst. eapply IHr; eauto.
    + exists [], a, cs. auto.
  - apply plus_greedy_consumes in H. destruct H as (t & a' & -> & H).
    exists t, a', cs. auto.
  - apply plus_lazy_consumes in H. destruct H as (t & a' & -> & H).
    exists t, a', cs. auto.
  - apply rep_greedy_consumes in H. destruct H as (t & a' & -> & H).
    exists t, a', cs. auto.
  - apply IHr in H. destruct H as (t & a' & cs' & -> & H).
    exists t, a', ((i, firstn (length (t ++ a') - length a') (t ++ a')) :: cs').
    auto.
  - destruct (at_boundary b a); [|discriminate].
    exists [], a, cs. auto.
  - discriminate.
Qed.

Lemma run_Grp_consumes (i : nat) (r : re) :
  forall b a cs (k : str -> str -> caps -> option R) x,
    run (Grp i r) b a cs k = Some x ->
    exists t a' cs', a = t ++ a' /\ k (rev t ++ b) a' ((i, t) :: cs') = Some x.
Proof.
  intros b a cs k x H. cbn [run] in H.
  apply run_consumes in H. destruct H as (t & a' & cs' & -> & H).
  rewrite firstn_app_minus in H. eauto.
Qed.

Lemma run_LitI_consumes (p : str) :
  forall b a cs (k : str -> str -> caps -> option R) x,
    run (LitI p) b a cs k = Some x ->
    exists t a',
      a = t ++ a'
      /\ Forall2 (fun x c => is_char_i x c = true) p t
      /\ k (rev t ++ b) a' cs = Some x.
Proof.
  induction p as [|y p IH]; intros b a cs k x H; cbn [LitI run] in H.
  - exists [], a. auto.
  - destruct a as [|c a]; [discriminate|].
    destruct (is_char_i y c) eqn:E; [|discriminate].
    apply IH in H. destruct H as (t & a' & -> & F & H).
    exists (c :: t), a'. split; [reflexivity|].
    split; [constructor; assumption|].
    cbn [rev]. rewrite <- app_assoc. exact H.
Qed.
End Consumes.

Lemma is_char_i_hash (c : ascii) : is_char_i "#" c = true -> c = "#"%char.
Proof.
  destruct c as [[] [] [] [] [] [] [] []]; vm_compute; intros H;
    first [reflexivity | discriminate H].
Qed.

Lemma is_char_i_space (c : ascii) : is_char_i " " c = true -> c = " "%char.
Proof.
  destruct c as [[] [] [] [] [] [] [] []]; vm_compute; intros H;
    first [reflexivity | discriminate H].
Qed.

(** *** What the title and the usage patterns match *)

Lemma exec_title_shape (b a : str) (m : rmatch) :
  exec_at re_title b a = Some m ->
  exists g, m_group m 1 = Some g /\ m_text m = g ++ [nl].
Proof.
  unfold exec_at, re_title. intros H.
  change (run (Seq ?r1 ?r2) ?b ?a ?cs ?k)
    with (run r1 b a cs (fun b' a' cs' => run r2 b' a' cs' k)) in H.
  apply run_Grp_consumes in H. destruct H as (g & a1 & cs1 & Ha & H).
  cbn [run] in H.
  destruct a1 as [|c a2]; [discriminate|].
  destruct (is_char nl c) eqn:E; [|discriminate].
  apply is_char_eq in E. subst c.
  destruct m as [i t cs]. injection H as _ Ht Hcs. exists g.
  unfold m_group. cbn [m_text m_caps]. rewrite <- Ht, <- Hcs.
  split; [reflexivity|].
  apply firstn_len_minus. rewrite Ha, <- app_assoc. reflexivity.
Qed.

Lemma exec_usage_shape (word b a : str) (m : rmatch) :
  exec_at (re_usage word) b a = Some m ->
  exists g, m_group m 1 = Some g /\ m_text m = lit "## " ++ g.
Proof.
  unfold exec_at, re_usage. intros H.
  change (run (Seq ?r1 ?r2) ?b ?a ?cs ?k)
    with (run r1 b a cs (fun b' a' cs' => run r2 b' a' cs' k)) in H.
  apply run_LitI_consumes in H. destruct H as (t & a1 & Ha & F & H).
  apply run_Grp_consumes in H. destruct H as (g & a2 & cs2 & Ha1 & H).
  assert (Et : t = lit "## ").
  { cbn [lit list_ascii_of_string] in F.
    inversion F as [|x1 c1 p1 t1 H1 F1]; subst.
    inversion F1 as [|x2 c2 p2 t2 H2 F2]; subst.
    inversion F2 as [|x3 c3 p3 t3 H3 F3]; subst.
    inversion F3; subst.
    apply is_char_i_hash in H1, H2. apply is_char_i_space in H3.
    subst. reflexivity. }
  subst t a1.
  destruct m as [i tx cs]. injection H as _ Ht Hcs. exists g.
  unfold m_group. cbn [m_text m_caps]. rewrite <- Ht, <- Hcs.
  split; [reflexivity|].
  apply firstn_len_minus. rewrite Ha, <- app_assoc. reflexivity.
Qed.

(** *** A first-match replacement that extends the match *)

Lemma skipn_length_app {A : Type} (x y : list A) :
  skipn (length x) (x ++ y) = y.
Proof. induction x; simpl; auto. Qed.

Lemma firstn_length_app {A : Type} (x y : list A) :
  firstn (length x) (x ++ y) = x.
Proof. induction x; simpl; [reflexivity | f_equal; assumption]. Qed.

Lemma replace_first_only_adds (r : re) (f : rmatch -> str) (s : str) :
  (forall b a m, exec_at r b a = Some m ->
                 exists extra, f m = m_text m ++ extra) ->
  only_adds s (replace_first r f s).
Proof.
  intros Hf. unfold replace_first.
  destruct (find_first r [] s) as [m|] eqn:E; [|apply only_adds_refl].
  apply find_first_sound in E. destruct E as (pre & post & -> & X).
  destruct (Hf _ _ _ X) as (extra & Hx).
  apply exec_at_text in X. destruct X as (Hi & n & Ht).
  rewrite app_nil_r, length_rev in Hi.
  assert (Hp : post = m_text m ++ skipn n post)
    by (rewrite Ht; symmetry; apply firstn_skipn).
  rewrite Hi, Hx.
  generalize dependent (skipn n post). generalize dependent (m_text m).
  intros t _ _ rest ->.
  rewrite firstn_length_app.
  replace (skipn (length pre + length t) (pre ++ t ++ rest)) with rest
    by (rewrite <- length_app, app_assoc, skipn_length_app; reflexivity).
  rewrite <- app_assoc.
  apply only_adds_app; [apply only_adds_refl|].
  apply only_adds_app; [apply only_adds_refl|].
  apply (only_adds_insert [] extra).
Qed.

Lemma splice_only_adds (i : nat) (header s : str) :
  only_adds s (firstn i s ++ header ++ skipn i s).
Proof.
  rewrite <- (firstn_skipn i s) at 1. apply only_adds_insert.
Qed.

(** *** The steps of the hook *)

Lemma exec_link_shape (names : list str) (b a : str) (m : rmatch) :
  exec_at (re_link names) b a = Some m ->
  exists alt c,
    In alt (link_alts names) /\ m_text m = bq :: alt ++ [bq; c].
Proof.
  unfold exec_at, re_link. cbn [Seqs run]. intros H.
  destruct a as [|q a1]; [discriminate|].
  destruct (is_char bq q) eqn:Eq; [|discriminate].
  apply is_char_eq in Eq. subst q.
  apply run_Alts_Lit in H.
  destruct H as (alt & a2 & Halt & -> & H).
  destruct a2 as [|q a3]; [discriminate|].
  destruct (is_char bq q) eqn:Eq; [|discriminate].
  apply is_char_eq in Eq. subst q.
  destruct a3 as [|c a4]; [discriminate|].
  destruct (not_line_end c) eqn:Ec; [|discriminate].
  destruct m as [i t cs]. injection H as _ Ht _. exists alt, c.
  split; [exact Halt|]. cbn [m_text]. rewrite <- Ht.
  assert (Ea : bq :: alt ++ bq :: c :: a4 = (bq :: alt ++ [bq; c]) ++ a4)
    by (cbn [app]; rewrite <- app_assoc; reflexivity).
  exact (firstn_len_minus (bq :: alt ++ [bq; c]) a4 _ Ea).
Qed.

Section Frame.
Variable format : str -> FormatOptions -> option str.
Variable transpileModule : str -> nat -> option str.
Variable twoslasher : str -> str -> option str.
Variable functionNames : list str.
Variable getFunction : str -> option VueUseFunction.
Variable packages : list PackageManifest.
Variable getTypeDefinition : str -> str -> option (option str).
Variable replacer : str -> str -> str -> str -> str.
Variable existsSync : str -> bool.
Variable path_join : list str -> str.
Variable DIR_TYPES : str.
Variable DIR_SRC : str.

Local Abbreviation transform :=
  (transform format transpileModule twoslasher functionNames getFunction
             packages getTypeDefinition replacer existsSync path_join
             DIR_TYPES DIR_SRC).
Local Abbreviation linkify := (linkify functionNames getFunction).
Local Abbreviation rewrite_blocks :=
  (rewrite_blocks format transpileModule twoslasher).
Local Abbreviation function_page :=
  (function_page format transpileModule twoslasher packages getTypeDefinition
                 replacer existsSync path_join DIR_TYPES DIR_SRC).
Local Abbreviation footer_step :=
  (footer_step (hasTypes existsSync DIR_TYPES) replacer).

Lemma linkify_same_gaps (code linked : str) :
  linkify code = Some linked ->
  same_gaps (re_link functionNames) code linked.
Proof.
  intros Hl. unfold linkify, replace_all in Hl.
  rewrite fold_pieces_stateless in Hl.
  destruct (promise_all
              (map (link_callback getFunction)
                   (hits (scan (re_link functionNames) [] code 0))))
    as [rs|] eqn:P; [|discriminate].
  cbn [bind fst] in Hl. inversion Hl.
  exists rs. split; [|split; [apply scan_interleave | reflexivity]].
  apply promise_all_length in P. rewrite length_map in P. exact P.
Qed.

Lemma relativize_same_gaps (code : str) :
  same_gaps re_site code (relativize code).
Proof.
  exists (map (fun _ => lit "/") (hits (scan re_site [] code 0))).
  split; [apply length_map|].
  split; [apply scan_interleave|].
  unfold relativize. apply replace_all_pure_spec.
Qed.

Lemma rewrite_blocks_same_gaps (code out : str) :
  rewrite_blocks code = Some out -> same_gaps re_fence code out.
Proof.
  intros Hb. rewrite rewrite_blocks_spec in Hb.
  destruct (promise_all
              (map (block_callback format transpileModule twoslasher)
                   (fences code)))
    as [rs|] eqn:P; [|discriminate].
  cbn [bind] in Hb. inversion Hb.
  exists rs. split; [|split; [apply scan_interleave | reflexivity]].
  apply promise_all_length in P. rewrite length_map in P. exact P.
Qed.

Lemma function_page_steps (code pkg name out : str) :
  function_page code pkg name = Some out ->
  exists rewritten footer,
    rewrite_blocks code = Some rewritten
    /\ only_adds (footer_step rewritten footer) out.
Proof.
  unfold function_page. cbv zeta. intros H.
  destruct (rewrite_blocks code) as [rewritten|]; [|discriminate].
  cbn [bind] in H.
  destruct (getFunctionMarkdown packages getTypeDefinition existsSync
                                path_join DIR_SRC pkg name)
    as [[footer header]|]; [|discriminate].
  cbn [bind fst snd] in H. injection H as <-.
  exists rewritten, footer. split; [reflexivity|].
  fold (footer_step rewritten footer).
  eapply only_adds_trans; [|apply replace_first_only_adds].
  eapply only_adds_trans; [|apply replace_first_only_adds].
  eapply only_adds_trans; [|apply replace_first_only_adds].
  - destruct header; [apply only_adds_refl | apply splice_only_adds].
  - intros b a m X. apply exec_title_shape in X.
    destruct X as (g & -> & ->).
    eexists. unfold lines. cbn [join show].
    rewrite <- app_assoc. reflexivity.
  - intros b a m X. apply exec_usage_shape in X.
    destruct X as (g & -> & ->).
    eexists. unfold lines. cbn [join show].
    rewrite <- app_assoc. reflexivity.
  - intros b a m X. apply exec_usage_shape in X.
    destruct X as (g & -> & ->).
    eexists. unfold lines. cbn [join show].
    rewrite <- app_assoc. reflexivity.
Qed.

(** C8, as the code has it: the hook deletes characters only where one of
    its patterns matches.  The linkifying step keeps all the text between
    the matches of its pattern, each of which is a back quote, an
    alternative of the pattern, a back quote and the character after it; the
    step that makes the site links relative keeps all the text between the
    site prefixes it replaces; the block rewriter keeps all the text between
    the fences.  Every later step of a function page only adds text: the
    header is spliced in, and the title and the two usage headings are
    replaced by themselves followed by new text.  The footer step between
    the block rewriter and these is the work of [replacer], which is not
    part of the file. *)
Theorem transform_deletes_only_matches (code id out : str) :
  transform code id = Some (Some out) ->
  exists linked,
    linkify code = Some linked
    /\ same_gaps (re_link functionNames) code linked
    /\ (forall m,
          In m (hits (scan (re_link functionNames) [] code 0)) ->
          exists alt c,
            In alt (link_alts functionNames)
            /\ m_text m = bq :: alt ++ [bq; c])
    /\ same_gaps re_site linked (relativize linked)
    /\ (forall m,
          In m (hits (scan re_site [] linked 0)) ->
          m_text m = lit "http://vueuse.org/"
          \/ m_text m = lit "https://vueuse.org/")
    /\ (out = relativize linked
        \/ exists rewritten footer,
             rewrite_blocks (relativize linked) = Some rewritten
             /\ same_gaps re_fence (relativize linked) rewritten
             /\ only_adds (footer_step rewritten footer) out).
Proof.
  unfold transform, rewrite_links. intros H.
  destruct (test re_md id); [|discriminate].
  cbn [negb] in H.
  destruct (linkify code) as [linked|] eqn:L; [|discriminate].
  cbn [bind] in H. cbv zeta in H.
  exists linked. split; [reflexivity|].
  split; [apply linkify_same_gaps; exact L|].
  split.
  { intros m Hin. apply hits_scan_located in Hin.
    destruct Hin as (pre & post & _ & X). exact (exec_link_shape _ _ _ _ X). }
  split; [apply relativize_same_gaps|].
  split.
  { intros m Hin. apply hits_scan_located in Hin.
    destruct Hin as (pre & post & _ & X). exact (exec_site_text _ _ _ X). }
  destruct (resolve_name functionNames
                         (nth_error (slice_last 3 (split_on "/" id)) 1))
    as [name|]; [|discriminate].
  cbn [bind] in H.
  destruct (includes functionNames name
            && is_index_md (nth_error (slice_last 3 (split_on "/" id)) 2)).
  - destruct (function_page (relativize linked) _ _) as [page|] eqn:P;
      [|discriminate].
    cbn [bind] in H. injection H as <-.
    apply function_page_steps in P.
    destruct P as (rewritten & footer & Hr & Ha).
    right. exists rewritten, footer.
    split; [exact Hr|]. split; [|exact Ha].
    apply rewrite_blocks_same_gaps. exact Hr.
  - injection H as <-. left. reflexivity.
Qed.
End Frame.


Lemma transform_deletes_only_matches_witness :
  let out := TypedSite.from_page (TypedSite.transform TypedSite.page page_id) in
  exists linked,
    linkify Sample.functionNames Sample.getFunction TypedSite.page = Some linked
    /\ same_gaps (re_link Sample.functionNames) TypedSite.page linked
    /\ (forall m,
          In m (hits (scan (re_link Sample.functionNames) [] TypedSite.page 0)) ->
          exists alt c,
            In alt (link_alts Sample.functionNames)
            /\ m_text m = bq :: alt ++ [bq; c])
    /\ same_gaps re_site linked (relativize linked)
    /\ (forall m,
          In m (hits (scan re_site [] linked 0)) ->
          m_text m = lit "http://vueuse.org/"
          \/ m_text m = lit "https://vueuse.org/")
    /\ (out = relativize linked
        \/ exists rewritten footer,
             rewrite_blocks Sample.format Sample.transpileModule
                            Sample.twoslasher (relativize linked)
             = Some rewritten
             /\ same_gaps re_fence (relativize linked) rewritten
             /\ only_adds
                  (footer_step (hasTypes TypedSite.existsSync Sample.DIR_TYPES)
                               Sample.replacer rewritten footer)
                  out).
Proof.
  intros out.
  apply (transform_deletes_only_matches
           Sample.format Sample.transpileModule Sample.twoslasher
           Sample.functionNames Sample.getFunction Sample.packages
           Sample.getTypeDefinition Sample.replacer TypedSite.existsSync
           Sample.path_join Sample.DIR_TYPES Sample.DIR_SRC
           TypedSite.page page_id out).
  reflexivity.
Defined.


(** ** Further properties on the sample environment *)

Import MoreCases.

Lemma replaceAsync_same_text_witness :
  replaceAsync quiet_page re_fence
               (block_callback Sample.format Sample.transpileModule
                               Sample.twoslasher)
  = Some quiet_page.
Proof.
  apply replaceAsync_same_text.
  intros m Hin. vm_compute in Hin. destruct Hin as [<-|[]]. reflexivity.
Defined.

Lemma all_unchanged_same_document_witness :
  rewrite_blocks Sample.format Sample.transpileModule Sample.twoslasher
                 quiet_page
  = Some quiet_page.
Proof.
  apply all_unchanged_same_document.
  intros m Hin. vm_compute in Hin. destruct Hin as [<-|[]]. reflexivity.
Defined.


Lemma fence_kept_iff_unchanged_witness :
  block_callback Sample.format Sample.transpileModule Sample.twoslasher
                 quiet_block
  = Some (m_text quiet_block)
  <-> Unchanged = Unchanged.
Proof.
  apply (fence_kept_iff_unchanged
           Sample.format Sample.transpileModule Sample.twoslasher
           quiet_page quiet_block Unchanged).
  - left. reflexivity.
  - reflexivity.
Defined.

Lemma transform_rejects_bare_id_witness :
  Sample.transform (lit "text") (lit "README.md") = None.
Proof.
  apply (transform_rejects_bare_id
           Sample.format Sample.transpileModule Sample.twoslasher
           Sample.functionNames Sample.getFunction Sample.packages
           Sample.getTypeDefinition Sample.replacer Sample.existsSync
           Sample.path_join Sample.DIR_TYPES Sample.DIR_SRC).
  - exists (lit "README"), []. split; [reflexivity | exact I].
  - intros H. vm_compute in H.
    repeat (destruct H as [H|H]; [discriminate H|]). exact H.
  - discriminate.
Defined.

Lemma function_page_dispatch_witness :
  Sample.transform quiet_page lower_page_id
  = (c <- rewrite_links Sample.functionNames Sample.getFunction quiet_page ;;
     p <- function_page Sample.format Sample.transpileModule Sample.twoslasher
                        Sample.packages Sample.getTypeDefinition
                        Sample.replacer Sample.existsSync Sample.path_join
                        Sample.DIR_TYPES Sample.DIR_SRC
                        c (lit "core") (lit "useMouse") ;;
     Some (Some p)).
Proof.
  apply (function_page_dispatch
           Sample.format Sample.transpileModule Sample.twoslasher
           Sample.functionNames Sample.getFunction Sample.packages
           Sample.getTypeDefinition Sample.replacer Sample.existsSync
           Sample.path_join Sample.DIR_TYPES Sample.DIR_SRC
           quiet_page lower_page_id (lit "core") (lit "usemouse")
           (lit "useMouse") [[]; lit "repo"; lit "packages"]).
  - reflexivity.
  - reflexivity.
  - discriminate.
Defined.

Lemma header_empty_iff_witness :
  ([] : str) = []
  <-> Sample.existsSync
        (Sample.path_join
           [Sample.path_join [Sample.DIR_SRC; lit "core"; lit "useMouse"];
            lit "demo.vue"]) = false
      /\ Sample.existsSync
           (Sample.path_join
              [Sample.path_join [Sample.DIR_SRC; lit "core"; lit "useMouse"];
               lit "demo.client.vue"]) = false
      /\ pkg_addon {| pkg_name := lit "core"; pkg_addon := false |} = false.
Proof.
  apply (header_empty_iff
           Sample.packages Sample.getTypeDefinition Sample.existsSync
           Sample.path_join Sample.DIR_SRC
           (lit "core") (lit "useMouse") mouse_footer []
           {| pkg_name := lit "core"; pkg_addon := false |}).
  - reflexivity.
  - reflexivity.
Defined.

Lemma no_backquote_no_rewrite_witness :
  linkify Sample.functionNames Sample.getFunction (lit "plain") = Some (lit "plain")
  /\ rewrite_blocks Sample.format Sample.transpileModule Sample.twoslasher
                    (lit "plain") = Some (lit "plain").
Proof.
  apply (no_backquote_no_rewrite
           Sample.format Sample.transpileModule Sample.twoslasher
           Sample.functionNames Sample.getFunction (lit "plain")).
  intros H. vm_compute in H.
  repeat (destruct H as [H|H]; [discriminate H|]). exact H.
Defined.

Lemma ts_pane_rematched_iff_annotated_witness :
  exec_at re_fence [] (ts_pane (lit " demo") typed ++ lit "end")
  = Some (MkMatch 0 (ts_pane (lit " demo") typed)
                  [(2, typed); (1, lit "  demo")]).
Proof.
  apply (ts_pane_rematched_iff_annotated
           [] (lit "end") typed (Some (lit " demo"))).
  - exists (lit "demo").
    split; [reflexivity|]. split; [discriminate | reflexivity].
  - split; [discriminate|].
    intros n Hn.
    do 19 (destruct n as [|n]; [first [lia | reflexivity]|]).
    simpl in Hn. lia.
Defined.
